(** * Yuuko: the command client (src/Client.js)

    A shallow embedding of the [Client] class of Yuuko, a command framework
    on top of the Eris Discord library: the constructor, the prefix
    resolver ([prefixForMessage], [splitPrefixFromContent]), the command
    lookup ([commandForName]), the registry operations ([addCommand],
    [addCommandFile], [reloadCommands]) and the dispatcher
    ([handleMessage]).

    JavaScript strings are sequences of UTF-16 code units; they are modelled
    as lists of code units.  [null] and [undefined] are modelled by [None]
    of an option type where the source only tests [== null] or truthiness,
    and apart where the distinction is the point (the constructor). *)

From Stdlib Require Import List Bool Arith NArith Lia String Ascii.
From Stdlib Require Import DecimalString Permutation.
Import ListNotations.
Open Scope string_scope.
Open Scope list_scope.

Set Implicit Arguments.

(* ================================================================== *)
(** ** JavaScript strings *)

(** A string is the list of its UTF-16 code units. *)
Abbreviation jsstr := (list N).

Module Js.

(** An ASCII literal as a JavaScript string. *)
Definition lit (s : string) : jsstr :=
  map N_of_ascii (list_ascii_of_string s).

Definition eqb (a b : jsstr) : bool :=
  if list_eq_dec N.eq_dec a b then true else false.

(** Truthiness of a string: every string but [''] is truthy. *)
Definition truthy (s : jsstr) : bool :=
  match s with [] => false | _ => true end.

(** [null], [undefined] and [''] are falsy. *)
Definition truthy_opt (o : option jsstr) : bool :=
  match o with None => false | Some s => truthy s end.

(** [s.startsWith(p)]; on a match, what follows [p] in [s]. *)
Fixpoint strip (p s : jsstr) : option jsstr :=
  match p, s with
  | [], _ => Some s
  | a :: p', b :: s' => if N.eqb a b then strip p' s' else None
  | _ :: _, [] => None
  end.

Definition startsWith (s p : jsstr) : bool :=
  match strip p s with Some _ => true | None => false end.

(** [s.substr(n)] for [0 <= n]. *)
Definition substr (s : jsstr) (n : nat) : jsstr := skipn n s.

(** [s.split(sep)] for a separator of one code unit: never empty, and
    [''.split(' ')] is [['']]. *)
Fixpoint split (sep : N) (s : jsstr) : list jsstr :=
  match s with
  | [] => [[]]
  | ch :: rest =>
      if N.eqb ch sep then [] :: split sep rest
      else match split sep rest with
           | [] => [[ch]]
           | w :: ws => (ch :: w) :: ws
           end
  end.

(** The class [\s] of regular expressions: white space and line
    terminators of ECMAScript. *)
Definition is_space (ch : N) : bool :=
  (N.leb 9 ch && N.leb ch 13)          (* \t \n \v \f \r *)
  || N.eqb ch 32                        (* space *)
  || N.eqb ch 160                       (* U+00A0 *)
  || N.eqb ch 5760                      (* U+1680 *)
  || (N.leb 8192 ch && N.leb ch 8202)   (* U+2000 .. U+200A *)
  || N.eqb ch 8232 || N.eqb ch 8233     (* U+2028 U+2029 *)
  || N.eqb ch 8239 || N.eqb ch 8287     (* U+202F U+205F *)
  || N.eqb ch 12288                     (* U+3000 *)
  || N.eqb ch 65279.                    (* U+FEFF *)


(** Whether [p] occurs somewhere in [s]. *)
Fixpoint occurs (p s : jsstr) : bool :=
  startsWith s p
  || match s with [] => false | _ :: s' => occurs p s' end.

(** A Discord id (a snowflake) is the decimal numeral of an integer. *)
Definition decimal (n : N) : jsstr :=
  lit (NilZero.string_of_uint (N.to_uint n)).

End Js.

(* ================================================================== *)
(** ** Data model *)

(** A name of a command: a string, or [null], the name under which the
    command answers a lone mention of the bot. *)
Abbreviation cname := (option (list N)).

Definition cname_eqb (a b : cname) : bool :=
  match a, b with
  | None, None => true
  | Some x, Some y => Js.eqb x y
  | _, _ => false
  end.

(** Modelled from the spec: the class [Command] (src/Command.js is not
    part of the sources at hand).  A command has a canonical name and
    aliases; [names] is the canonical name followed by the aliases, and
    may contain [null].  [filename] is set by [addCommandFile] only.
    [uid] stands for the identity of the object (its handler and
    requirements), which the client never inspects. *)
Record Command : Type := mkCommand {
  name : cname;
  aliases : list cname;
  filename : option jsstr;
  uid : nat
}.

(** Modelled from the spec: the getter [names], the canonical name first
    and the aliases after it; [commandForName] documents it as the name
    of the command and its aliases. *)
Definition names (c : Command) : list cname := name c :: aliases c.

(** [c.names.includes(n)] *)
Definition includes (ns : list cname) (n : cname) : bool :=
  existsb (cname_eqb n) ns.

(** What the client reads of an Eris message. *)
Record Author : Type := mkAuthor { bot : bool }.

Record Message : Type := mkMessage {
  author : option Author;      (* absent on system messages *)
  content : jsstr;
  guild : bool;                (* whether [msg.channel.guild] is set *)
  mid : nat                    (* identity of the message *)
}.

(** The fields of the client that its own methods read and write.
    [mentionPrefixRegExp] is [null] until the ready event, and then the
    expression [^<@!?ID>\s?] for the id of the bot: [Some ID]. *)
Record Client : Type := mkClient {
  defaultPrefix : option jsstr;
  allowMention : bool;
  ignoreBots : bool;
  hasStorage : bool;
  commands : list Command;
  mentionPrefixRegExp : option N
}.

Definition set_commands (c : Client) (cs : list Command) : Client :=
  mkClient (defaultPrefix c) (allowMention c) (ignoreBots c) (hasStorage c)
           cs (mentionPrefixRegExp c).

(* ================================================================== *)
(** ** The constructor *)

(** A property of the options object: missing ([undefined]), [null], or
    a value. *)
Inductive field (A : Type) : Type :=
| Missing : field A
| Null : field A
| Given : A -> field A.
Arguments Missing {A}.
Arguments Null {A}.

(** [v == null ? true : v] *)
Definition or_true (v : field bool) : bool :=
  match v with
  | Missing | Null => true
  | Given b => b
  end.

Record Options : Type := mkOptions {
  opt_prefix : field jsstr;
  opt_allowMention : field bool;
  opt_ignoreBots : field bool;
  opt_storage : bool            (* whether [options.storage] is truthy *)
}.

Definition no_options : Options := mkOptions Missing Missing Missing false.

Inductive Warning : Type :=
| EmptyPrefixWarning
| NoStorageWarning.

(** [new Client(options)]: the fields, and the warnings sent to the
    process.  The argument defaults to [{}]. *)
Definition construct (options : option Options) : Client * list Warning :=
  let options := match options with Some o => o | None => no_options end in
  let defaultPrefix :=
    match opt_prefix options with Given p => Some p | _ => None end in
  let w1 :=
    match opt_prefix options with
    | Given [] => [EmptyPrefixWarning]
    | _ => []
    end in
  (* options.allowMention == null ? true : options.allowMention *)
  let allowMention := or_true (opt_allowMention options) in
  (* options.ignoreBots == null ? true : options.ignoreBots *)
  let ignoreBots := or_true (opt_ignoreBots options) in
  let w2 := if opt_storage options then [] else [NoStorageWarning] in
  (mkClient defaultPrefix allowMention ignoreBots (opt_storage options)
            [] None,
   w1 ++ w2).

(** The override of [emit] on the ready event: the mention expression is
    built from the id of the logged-in user. *)
Definition ready (user_id : N) (c : Client) : Client :=
  mkClient (defaultPrefix c) (allowMention c) (ignoreBots c) (hasStorage c)
           (commands c) (Some user_id).

(* ================================================================== *)
(** ** Lookup *)

(** [commandForName(name)]: [this.commands.find(c => c.names.includes(name))]. *)
Definition commandForName (c : Client) (n : cname) : option Command :=
  find (fun cmd => includes (names cmd) n) (commands c).

(* ================================================================== *)
(** ** The prefix resolver *)

(** [prefixForMessage(msg)] *)
Definition prefixForMessage (c : Client) (msg : Message) : option jsstr :=
  if guild msg then defaultPrefix c else Some [].

(** [s.match(re)] for the value of [mentionPrefixRegExp]; the result is
    the matched text, [match[0]].

    After the ready event the expression is [^<@!?ID>\s?]: the text
    [<@], an optional [!], the digits of the id, [>], and at most one
    white-space character.  Both optional parts are greedy and neither
    needs backtracking: the id never starts with [!], and nothing follows
    the white space.

    Before the ready event the field is [null], and [match(null)] builds
    the expression [/null/], which finds the text [null] anywhere. *)
Definition mention_match (re : option N) (s : jsstr) : option jsstr :=
  match re with
  | None => if Js.occurs (Js.lit "null") s then Some (Js.lit "null") else None
  | Some id =>
      match Js.strip (Js.lit "<@") s with
      | None => None
      | Some s1 =>
          let '(bang, s2) :=
            match s1 with
            | 33%N :: t => ([33%N], t)
            | _ => ([], s1)
            end in
          match Js.strip (Js.decimal id) s2 with
          | None => None
          | Some s3 =>
              match s3 with
              | 62%N :: s4 =>
                  let ws :=
                    match s4 with
                    | ch :: _ => if Js.is_space ch then [ch] else []
                    | [] => []
                    end in
                  Some (Js.lit "<@" ++ bang ++ Js.decimal id ++ [62%N] ++ ws)
              | _ => None
              end
          end
      end
  end.

(** The [return] statement of [splitPrefixFromContent] that is taken. *)
Inductive Branch : Type :=
| ByPrefix       (* the contextual prefix matched *)
| ByMention      (* a mention of the bot matched *)
| ByDirect       (* direct message, no prefix needed *)
| NoMatch.       (* [null, null] *)

(** [splitPrefixFromContent(msg)], with the branch that returned. *)
Definition splitPrefix_branch (c : Client) (msg : Message)
  : Branch * (option jsstr * option jsstr) :=
  let prefix := prefixForMessage c msg in
  let by_prefix :=
    match prefix with
    | Some p =>
        if Js.startsWith (content msg) p
        then Some (p, Js.substr (content msg) (List.length p))
        else None
    | None => None
    end in
  match by_prefix with
  | Some (p, rest) => (ByPrefix, (Some p, Some rest))
  | None =>
      let m := mention_match (mentionPrefixRegExp c) (content msg) in
      match (if allowMention c then m else None) with
      | Some m0 =>
          (ByMention, (Some m0, Some (Js.substr (content msg) (List.length m0))))
      | None =>
          if negb (guild msg) then (ByDirect, (Some [], Some (content msg)))
          else (NoMatch, (None, None))
      end
  end.

Definition splitPrefixFromContent (c : Client) (msg : Message)
  : option jsstr * option jsstr :=
  snd (splitPrefix_branch c msg).

(* ================================================================== *)
(** ** Events, errors and the monad of the registry operations *)

(** What the client does that an observer can see: the events it emits
    ([this.emit(event, command)] or [this.emit(event, command, msg)]),
    and the calls [command.execute(this, msg, args, prefix, commandName)]. *)
Inductive Event : Type :=
| Emitted (event : string) (cmd : Command) (msg : option Message)
| Executed (cmd : Command) (msg : Message) (args : list jsstr)
           (prefix : option jsstr) (commandName : cname).

Inductive Error : Type :=
| TypeError                       (* [Not a command], or a property of [undefined] *)
| AlreadyRegistered (n : cname)   (* [Command ${command.name} already registered] *)
| LoadError                       (* thrown by the module loader *)
| HandlerError (tag : nat).       (* thrown by a command handler *)

(** The client, the events emitted so far, and a ghost history: the
    value of [this.commands] after each of its mutations, oldest first. *)
Record World : Type := mkWorld {
  client : Client;
  log : list Event;
  history : list (list Command)
}.

Definition start (c : Client) : World := mkWorld c [] [].

Inductive Res (A : Type) : Type :=
| Ok : A -> Res A
| Throw : Error -> Res A.
Arguments Throw {A}.

(** A method of the client: it runs on a world, leaves a world, and
    returns or throws. *)
Definition M (A : Type) : Type := World -> World * Res A.

Definition ret {A} (a : A) : M A := fun w => (w, Ok a).

Definition throw {A} (e : Error) : M A := fun w => (w, Throw e).

Definition bind {A B} (m : M A) (k : A -> M B) : M B :=
  fun w =>
    match m w with
    | (w', Ok a) => k a w'
    | (w', Throw e) => (w', Throw e)
    end.

Declare Scope client_scope.
Delimit Scope client_scope with client.
Notation "x <- m ;; k" := (bind m (fun x => k))
  (at level 100, m at next level, right associativity) : client_scope.
Notation "m ;; k" := (bind m (fun _ => k))
  (at level 100, right associativity) : client_scope.
Open Scope client_scope.

Definition get_commands : M (list Command) :=
  fun w => (w, Ok (commands (client w))).

(** Any assignment to the array [this.commands]. *)
Definition put_commands (cs : list Command) : M unit :=
  fun w => (mkWorld (set_commands (client w) cs) (log w) (history w ++ [cs]),
            Ok tt).

(** [this.emit(event, command)] *)
Definition emit (event : string) (cmd : Command) : M unit :=
  fun w => (mkWorld (client w) (log w ++ [Emitted event cmd None]) (history w),
            Ok tt).

(** [this.commands.push(command)] *)
Definition push (cmd : Command) : M unit :=
  cs <- get_commands ;; put_commands (cs ++ [cmd]).

(** [this.commands.splice(i, 1)] *)
Definition splice (i : nat) : M unit :=
  cs <- get_commands ;; put_commands (firstn i cs ++ skipn (S i) cs).

(** A JavaScript value where a command is expected. *)
Inductive Value : Type :=
| Nullish                   (* [undefined] or [null] *)
| Other                     (* anything else that is not a [Command] *)
| IsCommand (c : Command).

(** [c.filename = filename] *)
Definition set_filename (c : Command) (f : jsstr) : Command :=
  mkCommand (name c) (aliases c) (Some f) (uid c).

(** A command with a truthy [filename]: one loaded from a file. *)
Definition tracked (c : Command) : bool := Js.truthy_opt (filename c).

(* ================================================================== *)
(** ** The registry *)

(** [addCommand(command)]; the returned [this] is left out. *)
Definition addCommand (v : Value) : M unit :=
  match v with
  | IsCommand command =>
      fun w =>
        match commandForName (client w) (name command) with
        | Some _ => throw (AlreadyRegistered (name command)) w
        | None => (push command ;; emit "commandLoaded" command) w
        end
  | _ => throw TypeError
  end.

Section Loader.

(** [reload(filename)] of require-reload: the value the module
    exports, or [None] when loading it throws. *)
Variable reload : jsstr -> option Value.

(** [addCommandFile(filename)] *)
Definition addCommandFile (f : jsstr) : M unit :=
  match reload f with
  | None => throw LoadError
  | Some Nullish => throw TypeError          (* [command.filename = ...] *)
  | Some Other => addCommand Other
  | Some (IsCommand command) => addCommand (IsCommand (set_filename command f))
  end.

(** The loop of [reloadCommands]: [while (i--) { ... }]. *)
Fixpoint reload_loop (i : nat) : M unit :=
  match i with
  | 0 => ret tt
  | S i' =>
      cs <- get_commands ;;
      match nth_error cs i' with
      | None => throw TypeError                (* [undefined.filename] *)
      | Some command =>
          match filename command with
          | Some f =>
              if Js.truthy f then       (* [if (command.filename)] *)
                splice i' ;;
                addCommandFile f ;;
                reload_loop i'
              else reload_loop i'
          | None => reload_loop i'
          end
      end
  end.

(** [reloadCommands()] *)
Definition reloadCommands : M unit :=
  cs <- get_commands ;; reload_loop (List.length cs).

End Loader.

(* ================================================================== *)
(** ** The dispatcher *)

(** How the promise returned by [execute] ends. *)
Inductive Settles : Type :=
| Fulfils
| Rejects (e : Error)
| Never.

(** A call of [command.execute]: it throws, or returns a promise. *)
Inductive Execution : Type :=
| Throws (e : Error)
| Returns (p : Settles).

(** How the promise returned by [handleMessage] ends. *)
Inductive Outcome : Type :=
| Resolved
| Rejected (e : Error)
| Pending.

Section Dispatch.

(** [command.execute(client, msg, args, prefix, commandName)], of the
    absent src/Command.js: the permission checks and the handler of the
    command. *)
Variable execute :
  Command -> Client -> Message -> list jsstr -> option jsstr -> cname ->
  Execution.

(** [prefix.match(this.mentionPrefixRegExp)], as a condition. *)
Definition prefix_is_mention (c : Client) (prefix : jsstr) : bool :=
  match mention_match (mentionPrefixRegExp c) prefix with
  | Some _ => true
  | None => false
  end.

(** Lines 114 to 121: the command named by the first word of
    [content].  [before] is what the call has done so far. *)
Definition dispatch_named (c : Client) (msg : Message)
           (prefix : option jsstr) (content : jsstr) (before : list Event)
  : list Event * Outcome :=
  let args := Js.split 32 content in
  let commandName := hd [] args in       (* args.splice(0, 1)[0] *)
  let args := tl args in
  match commandForName c (Some commandName) with
  | None => (before, Resolved)
  | Some command =>
      let called :=
        before ++ [Emitted "preCommand" command (Some msg);
                   Executed command msg args prefix (Some commandName)] in
      match execute command c msg args prefix (Some commandName) with
      | Throws e => (called, Rejected e)
      | Returns (Rejects e) => (called, Rejected e)
      | Returns Never => (called, Pending)
      | Returns Fulfils =>
          (called ++ [Emitted "command" command (Some msg)], Resolved)
      end
  end.

(** [handleMessage(msg)]: what it does, in order, and how its promise
    ends. *)
Definition handleMessage (c : Client) (msg : Message)
  : list Event * Outcome :=
  match author msg with
  | None => ([], Resolved)
  | Some a =>
      if ignoreBots c && bot a then ([], Resolved) else
      let '(prefix, content) := splitPrefixFromContent c msg in
      if negb (Js.truthy_opt content) then
        match prefix with
        | None => ([], Resolved)
        | Some p =>
            if negb (Js.truthy p) || negb (prefix_is_mention c p)
            then ([], Resolved)
            else
              (* A lone mention triggers the default command *)
              match commandForName c None with
              | None => ([], Resolved)
              | Some defaultCommand =>
                  let called := [Executed defaultCommand msg [] prefix None] in
                  match execute defaultCommand c msg [] prefix None with
                  | Throws e => (called, Rejected e)
                  | Returns _ =>
                      (* not awaited, and no [return]: line 114 is next *)
                      match content with
                      | None => (called, Rejected TypeError)
                      | Some s => dispatch_named c msg prefix s called
                      end
                  end
              end
        end
      else
        match content with
        | None => ([], Rejected TypeError)
        | Some s => dispatch_named c msg prefix s []
        end
  end.

End Dispatch.

(* ================================================================== *)
(** ** Properties of registries *)

(** A command that was not loaded from a file. *)
Definition untracked (k : Command) : bool := negb (tracked k).

(** The event [commandLoaded] of a command. *)
Definition loaded (k : Command) : Event := Emitted "commandLoaded" k None.

(** Two commands answer to the same names. *)
Definition same_names (a b : Command) : Prop :=
  forall n, In n (names a) <-> In n (names b).


(** All names of a registry. *)
Definition all_names (cs : list Command) : list cname := flat_map names cs.

(** The commands of a registry that answer to [n]. *)
Definition holders (n : cname) (cs : list Command) : list Command :=
  filter (fun c => includes (names c) n) cs.

(** No name is held by two commands of the registry. *)
Definition names_unique (cs : list Command) : Prop :=
  forall n, List.length (holders n cs) <= 1.

(** [fresh] is what a loader makes of the file of [old]. *)
Definition reloaded (reload : jsstr -> option Value) (old fresh : Command)
  : Prop :=
  exists f v,
    filename old = Some f /\ reload f = Some (IsCommand v) /\
    fresh = set_filename v f.

(** The handler raised: [execute] threw, or its promise rejects. *)
Definition raises (x : Execution) (e : Error) : Prop :=
  x = Throws e \/ x = Returns (Rejects e).

(** The message [m] names the registered command [cmd]: it is not
    ignored, what follows its prefix is not empty and starts with the
    word [n], which [cmd] answers to; [args] are the other words. *)
Definition invokes (c : Client) (m : Message) (cmd : Command)
           (prefix : option jsstr) (args : list jsstr) (n : jsstr) : Prop :=
  exists a s,
    author m = Some a /\ ignoreBots c && bot a = false /\
    splitPrefixFromContent c m = (prefix, Some s) /\ s <> [] /\
    n = hd [] (Js.split 32 s) /\ args = tl (Js.split 32 s) /\
    commandForName c (Some n) = Some cmd.

(** A promise, by the way it ends. *)
Inductive Promise (A : Type) : Type :=
| Fulfilled (a : A)
| Failed (e : Error)
| Unsettled.
Arguments Failed {A}.
Arguments Unsettled {A}.

(* ================================================================== *)
(** ** Sample data *)

Module Sample.

Definition user (s : string) (g : bool) : Message :=
  mkMessage (Some (mkAuthor false)) (Js.lit s) g 0.

Definition cmd (n : string) (als : list string) (id : nat) : Command :=
  mkCommand (Some (Js.lit n)) (map (fun a => Some (Js.lit a)) als) None id.

Definition ping : Command := cmd "ping" [] 1.

(** The help command: [new Command(['help', 'man', 'h', null], ...)]. *)
Definition help : Command :=
  mkCommand (Some (Js.lit "help")) [Some (Js.lit "man"); Some (Js.lit "h"); None]
            None 2.

Definition boom : Command := cmd "boom" [] 13.


(** A client made with [{prefix: '!', storage}], after the ready event
    of the user 123, with the given registry. *)
Definition bot_with (cs : list Command) : Client :=
  set_commands
    (ready 123 (fst (construct (Some (mkOptions (Given (Js.lit "!"))
                                                Missing Missing true)))))
    cs.

(** Handlers: the one of [boom] throws, the others complete. *)
Definition run (c : Command) (_ : Client) (_ : Message) (_ : list jsstr)
           (_ : option jsstr) (_ : cname) : Execution :=
  if Nat.eqb (uid c) 13 then Throws (HandlerError 13) else Returns Fulfils.

(** Two commands, the first from the file [g.js]. *)
Definition beta : Command :=
  set_filename (cmd "b" ["c"] 7) (Js.lit "g.js").
Definition alpha : Command := cmd "a" ["b"] 6.

(** The file [g.js] exports the command [b] with the alias [c]; the
    file [f.js] exports a command [b]; no other file loads. *)
Definition disk (f : jsstr) : option Value :=
  if Js.eqb f (Js.lit "g.js") then Some (IsCommand (cmd "b" ["c"] 7))
  else if Js.eqb f (Js.lit "f.js") then Some (IsCommand (cmd "b" [] 8))
  else None.


(** A command [c] with the alias [b], and a command [b]. *)
Definition gamma : Command := cmd "c" ["b"] 9.
Definition bravo : Command := cmd "b" [] 3.

(** The directory [cmds] holds the files [g.js] and [f.js]. *)
Definition tree (pattern : jsstr) : list jsstr :=
  if Js.eqb pattern (Js.lit "cmds/*.js")
  then [Js.lit "g.js"; Js.lit "f.js"]
  else [].

(** The handlers a user may run: all but the one of [boom]. *)
Definition allowed (c : Command) (_ : nat) (_ : list Command) : Promise bool :=
  Fulfilled (negb (Nat.eqb (uid c) 13)).

End Sample.

(* ================================================================== *)
(** ** Loading a directory *)

(** [s.endsWith(p)] *)
Definition js_endsWith (s p : jsstr) : bool :=
  Js.startsWith (rev s) (rev p).

Section Directory.

(** [glob.sync(pattern)]: the files that match, in the order of glob. *)
Variable glob : jsstr -> list jsstr.

Variable reload : jsstr -> option Value.

(** [for (let filename of filenames) this.addCommandFile(filename)] *)
Fixpoint addCommandFiles (filenames : list jsstr) : M unit :=
  match filenames with
  | [] => ret tt
  | filename :: rest =>
      addCommandFile reload filename ;; addCommandFiles rest
  end.

(** [addCommandDir(dirname)] *)
Definition addCommandDir (dirname : jsstr) : M unit :=
  let dirname :=
    if js_endsWith dirname (Js.lit "/") then dirname
    else dirname ++ Js.lit "/" in
  let pattern := dirname ++ Js.lit "*.js" in
  addCommandFiles (glob pattern).

(** A call of one of the methods that change the registry. *)
Inductive Call : Type :=
| CallAddCommand (v : Value)
| CallAddCommandFile (f : jsstr)
| CallAddCommandDir (d : jsstr)
| CallReloadCommands.

Definition call (k : Call) : M unit :=
  match k with
  | CallAddCommand v => addCommand v
  | CallAddCommandFile f => addCommandFile reload f
  | CallAddCommandDir d => addCommandDir d
  | CallReloadCommands => reloadCommands reload
  end.

End Directory.

(** What the file system holds at the time of a call: the answers of
    [glob.sync] and of require-reload then. *)
Record Disk : Type := mkDisk {
  disk_glob : jsstr -> list jsstr;
  disk_reload : jsstr -> option Value
}.

(** A sequence of such calls, each made on the disk of its time and on
    what the call before left, whether that one returned or threw. *)
Fixpoint calls (ks : list (Disk * Call)) (w : World) : World :=
  match ks with
  | [] => w
  | (d, k) :: rest =>
      calls rest (fst (call (disk_glob d) (disk_reload d) k w))
  end.

(** The files [fs], loaded one after the other into the registry [cs],
    register the commands [added]: each file exports a command whose
    canonical name no command of the registry answers to by then. *)
Inductive loads (reload : jsstr -> option Value)
  : list Command -> list jsstr -> list Command -> Prop :=
| loads_nil cs : loads reload cs [] []
| loads_cons cs f fs v added :
    reload f = Some (IsCommand v) ->
    (forall d, In d cs -> ~ In (name v) (names d)) ->
    loads reload (cs ++ [set_filename v f]) fs added ->
    loads reload cs (f :: fs) (set_filename v f :: added).

(** The file [f] cannot be registered into the registry [cs], and the
    error that tells why: it does not load, or it exports no command, or
    the canonical name of its command is taken. *)
Definition file_fails (reload : jsstr -> option Value) (f : jsstr)
           (cs : list Command) (e : Error) : Prop :=
  (reload f = None /\ e = LoadError)
  \/ ((reload f = Some Nullish \/ reload f = Some Other) /\ e = TypeError)
  \/ exists v,
      reload f = Some (IsCommand v) /\ e = AlreadyRegistered (name v)
      /\ exists d, In d cs /\ In (name v) (names d).

Module SampleDisk.

(** The disk at first, and later, when [g.js] exports a command [g] and
    [f.js] is gone. *)
Definition disk0 : Disk := mkDisk Sample.tree Sample.disk.

Definition disk1 : Disk :=
  mkDisk Sample.tree
         (fun f => if Js.eqb f (Js.lit "g.js")
                   then Some (IsCommand (Sample.cmd "g" ["c"] 10))
                   else None).

End SampleDisk.

(* ================================================================== *)
(** ** Words and mentions *)

(** [words.join(sep)] for a separator of one code unit. *)
Fixpoint join_with (sep : N) (words : list jsstr) : jsstr :=
  match words with
  | [] => []
  | [w] => w
  | w :: rest => w ++ sep :: join_with sep rest
  end.

(** The text of a mention of the user [id]: [<@ID>] or, with [bang],
    [<@!ID>]. *)
Definition mention_text (id : N) (bang : bool) : jsstr :=
  Js.lit "<@" ++ (if bang then [33%N] else []) ++ Js.decimal id ++ [62%N].

(** The first code unit of [s] when it is white space, and nothing
    otherwise: what [\s?] takes at the start of [s]. *)
Definition lead_space (s : jsstr) : jsstr :=
  match s with
  | ch :: _ => if Js.is_space ch then [ch] else []
  | [] => []
  end.

(** No command of the registry has its canonical name among the names
    of a command registered before it. *)
Fixpoint canonical_first (cs : list Command) : Prop :=
  match cs with
  | [] => True
  | d :: rest =>
      (forall k, In k rest -> ~ In (name k) (names d)) /\ canonical_first rest
  end.

(* ================================================================== *)
(** ** The helper [filterAsync] of the help command *)

(** [await Promise.all(promises)], when it gives a value: the values of
    the promises, when all of them are fulfilled. *)
Fixpoint all_fulfilled {A} (promises : list (Promise A)) : option (list A) :=
  match promises with
  | [] => Some []
  | Fulfilled a :: rest =>
      match all_fulfilled rest with
      | Some values => Some (a :: values)
      | None => None
      end
  | _ :: _ => None
  end.

(** [l.map((el, i) => f(el, i))], counting from [i]. *)
Fixpoint mapi_from {A B} (i : nat) (f : A -> nat -> B) (l : list A) : list B :=
  match l with
  | [] => []
  | el :: rest => f el i :: mapi_from (S i) f rest
  end.

(** [array.filter(() => bits.shift())]: each test takes the first of
    the bits that are left; [shift()] of an empty array is [undefined]. *)
Fixpoint filter_shift {A} (array : list A) (bits : list bool) : list A :=
  match array with
  | [] => []
  | el :: rest =>
      match bits with
      | [] => filter_shift rest []
      | b :: bits' =>
          if b then el :: filter_shift rest bits' else filter_shift rest bits'
      end
  end.

(** [filterAsync(array, filter)]: the value of the promise it returns,
    or [None] when that promise is not fulfilled. *)
Definition filterAsync {A} (array : list A)
           (filter : A -> nat -> list A -> Promise bool) : option (list A) :=
  match all_fulfilled (mapi_from 0 (fun el i => filter el i array) array) with
  | Some bits => Some (filter_shift array bits)
  | None => None
  end.

(* ================================================================== *)
(** * Properties *)

(** ** Names and lookup *)

Lemma js_eqb_eq (a b : jsstr) : Js.eqb a b = true <-> a = b.
Proof.
  unfold Js.eqb. destruct (list_eq_dec N.eq_dec a b); split; congruence.
Qed.

Lemma cname_eqb_eq (a b : cname) : cname_eqb a b = true <-> a = b.
Proof.
  destruct a as [x|], b as [y|]; simpl; try (split; congruence).
  rewrite js_eqb_eq. split; congruence.
Qed.

Lemma includes_In (ns : list cname) (n : cname) :
  includes ns n = true <-> In n ns.
Proof.
  unfold includes. rewrite existsb_exists. split.
  - intros [x [Hx He]]. apply cname_eqb_eq in He. now subst.
  - intros H. exists n. split; [assumption | now apply cname_eqb_eq].
Qed.

Lemma includes_not_In (ns : list cname) (n : cname) :
  includes ns n = false <-> ~ In n ns.
Proof.
  rewrite <- includes_In. destruct (includes ns n); split; congruence.
Qed.

(** [Array.prototype.find] returns the first element that satisfies the
    test. *)
Lemma find_first {A} (f : A -> bool) (l : list A) (x : A) :
  find f l = Some x <->
  exists l1 l2, l = l1 ++ x :: l2 /\ f x = true /\
                forall y, In y l1 -> f y = false.
Proof.
  split.
  - induction l as [|a l IH]; simpl; [discriminate|].
    destruct (f a) eqn:Fa.
    + intros [= ->]. exists [], l. simpl. intuition.
    + intros H. destruct (IH H) as (l1 & l2 & -> & Fx & Hl1).
      exists (a :: l1), l2. simpl. repeat split; trivial.
      intros y [<-|Hy]; auto.
  - intros (l1 & l2 & -> & Fx & Hl1).
    induction l1 as [|a l1 IH]; simpl.
    + now rewrite Fx.
    + rewrite (Hl1 a (or_introl eq_refl)). apply IH.
      intros y Hy. apply Hl1. now right.
Qed.

Lemma find_nothing {A} (f : A -> bool) (l : list A) :
  find f l = None <-> forall y, In y l -> f y = false.
Proof.
  split.
  - intros H y Hy. exact (find_none f l H y Hy).
  - induction l as [|a l IH]; simpl; trivial.
    intros H. rewrite (H a (or_introl eq_refl)). apply IH.
    intros y Hy. apply H. now right.
Qed.

Lemma commandForName_Some (c : Client) (n : cname) (cmd : Command) :
  commandForName c n = Some cmd <->
  exists before after,
    commands c = before ++ cmd :: after /\ In n (names cmd) /\
    forall d, In d before -> ~ In n (names d).
Proof.
  unfold commandForName. rewrite find_first.
  split; intros (l1 & l2 & E & Fx & Hl1); exists l1, l2;
    repeat split; trivial.
  - now apply includes_In.
  - intros d Hd. apply includes_not_In. now apply Hl1.
  - now apply includes_In.
  - intros d Hd. apply includes_not_In. now apply Hl1.
Qed.

Lemma commandForName_None (c : Client) (n : cname) :
  commandForName c n = None <->
  forall d, In d (commands c) -> ~ In n (names d).
Proof.
  unfold commandForName. rewrite find_nothing.
  split; intros H d Hd; apply includes_not_In; now apply H.
Qed.

(** C6. [commandForName] returns the first command, in registry order,
    whose names contain the query (a string or [null]), and nothing
    exactly when no command of the registry has the query among its
    names. *)
Theorem commandForName_first_match (c : Client) (n : cname) :
  (forall cmd,
      commandForName c n = Some cmd <->
      exists before after,
        commands c = before ++ cmd :: after /\ In n (names cmd) /\
        forall d, In d before -> ~ In n (names d))
  /\ (commandForName c n = None <->
      forall d, In d (commands c) -> ~ In n (names d)).
Proof.
  split.
  - intros cmd. apply commandForName_Some.
  - apply commandForName_None.
Qed.

(** ** The constructor *)

(** C10. A client made from options without [allowMention] (missing or
    [null]) allows mentions, one made without [ignoreBots] ignores bots,
    and an explicit value, [false] too, is kept. *)
Theorem construct_flags_default_true :
  (allowMention (fst (construct None)) = true /\
   ignoreBots (fst (construct None)) = true)
  /\ forall (p : field jsstr) (f : field bool) (s : bool),
      (allowMention (fst (construct (Some (mkOptions p Missing f s)))) = true /\
       allowMention (fst (construct (Some (mkOptions p Null f s)))) = true /\
       forall b,
         allowMention (fst (construct (Some (mkOptions p (Given b) f s)))) = b)
      /\
      (ignoreBots (fst (construct (Some (mkOptions p f Missing s)))) = true /\
       ignoreBots (fst (construct (Some (mkOptions p f Null s)))) = true /\
       forall b,
         ignoreBots (fst (construct (Some (mkOptions p f (Given b) s)))) = b).
Proof.
  split; [split; reflexivity|].
  intros p f s. repeat split; reflexivity.
Qed.

(** ** The prefix resolver *)

Lemma strip_nil (s : jsstr) : Js.strip [] s = Some s.
Proof. destruct s; reflexivity. Qed.

(** C5. With the default prefix [!], the guild message [!ping] resolves
    to [('!', 'ping')], the direct message [ping] to [('', 'ping')], and
    the guild message [hello] to [(null, null)], whatever the other
    fields of the client are. *)
Theorem prefix_resolution_examples
        (mention bots storage : bool) (cs : list Command) (re : option N)
        (a1 a2 a3 : option Author) (i1 i2 i3 : nat) :
  let c := mkClient (Some (Js.lit "!")) mention bots storage cs re in
  splitPrefixFromContent c (mkMessage a1 (Js.lit "!ping") true i1)
    = (Some (Js.lit "!"), Some (Js.lit "ping"))
  /\ splitPrefixFromContent c (mkMessage a2 (Js.lit "ping") false i2)
    = (Some [], Some (Js.lit "ping"))
  /\ splitPrefixFromContent c (mkMessage a3 (Js.lit "hello") true i3)
    = (None, None).
Proof.
  repeat split.
  destruct mention, re; reflexivity.
Qed.

(** C9. A direct message always resolves to [('', content)], by the
    first [return] of [splitPrefixFromContent]: the mention branch and
    the direct-message branch are not reached, and the result is never
    [(null, null)]. *)
Theorem direct_message_resolves_by_prefix (c : Client) (msg : Message) :
  guild msg = false ->
  prefixForMessage c msg = Some []
  /\ splitPrefix_branch c msg = (ByPrefix, (Some [], Some (content msg)))
  /\ splitPrefixFromContent c msg = (Some [], Some (content msg))
  /\ splitPrefixFromContent c msg <> (None, None).
Proof.
  intros G.
  assert (E : splitPrefix_branch c msg
              = (ByPrefix, (Some [], Some (content msg)))).
  { unfold splitPrefix_branch, prefixForMessage, Js.startsWith.
    rewrite G, strip_nil. reflexivity. }
  unfold splitPrefixFromContent. rewrite E. simpl.
  repeat split; try discriminate.
  unfold prefixForMessage. now rewrite G.
Qed.

Lemma direct_message_resolves_by_prefix_witness :
  splitPrefix_branch (Sample.bot_with []) (Sample.user "ping" false)
  = (ByPrefix, (Some [], Some (Js.lit "ping"))).
Proof.
  exact (proj1 (proj2 (direct_message_resolves_by_prefix
                         (Sample.bot_with []) (Sample.user "ping" false)
                         eq_refl))).
Defined.

(** ** Registration *)

Lemma addCommand_accepts (k : Command) (w : World) :
  commandForName (client w) (name k) = None ->
  addCommand (IsCommand k) w
  = (mkWorld (set_commands (client w) (commands (client w) ++ [k]))
             (log w ++ [Emitted "commandLoaded" k None])
             (history w ++ [commands (client w) ++ [k]]),
     Ok tt).
Proof.
  intros H. unfold addCommand. rewrite H. reflexivity.
Qed.

Lemma addCommand_rejects (k d : Command) (w : World) :
  commandForName (client w) (name k) = Some d ->
  addCommand (IsCommand k) w = (w, Throw (AlreadyRegistered (name k))).
Proof.
  intros H. unfold addCommand. rewrite H. reflexivity.
Qed.

(** What the guard of [addCommand] tests: the error is thrown exactly
    when the canonical name of the new command is a name of a registered
    one.  The aliases of the new command are not looked at. *)
Lemma addCommand_throws_iff (k : Command) (w : World) :
  snd (addCommand (IsCommand k) w) = Throw (AlreadyRegistered (name k))
  <-> exists d, In d (commands (client w)) /\ In (name k) (names d).
Proof.
  destruct (commandForName (client w) (name k)) as [d|] eqn:E.
  - rewrite (addCommand_rejects _ _ E). simpl. split; trivial. intros _.
    apply commandForName_Some in E.
    destruct E as (l1 & l2 & E & Hn & _). exists d. split; trivial.
    rewrite E. apply in_or_app. right. now left.
  - rewrite (addCommand_accepts _ _ E). simpl. split; [discriminate|].
    intros (d & Hd & Hn).
    rewrite commandForName_None in E. now elim (E d Hd).
Qed.

(** C2. The guard of [addCommand] looks up the canonical name of the new
    command only.  The registry holds a command [a] with the alias [b];
    the command [c] with the alias [b] is registered without an error,
    although [b] is a name of both. *)
Theorem addCommand_accepts_colliding_alias :
  In (Some (Js.lit "b")) (names Sample.gamma)
  /\ In (Some (Js.lit "b")) (names Sample.alpha)
  /\ addCommand (IsCommand Sample.gamma)
                (start (Sample.bot_with [Sample.alpha]))
     = (mkWorld (Sample.bot_with [Sample.alpha; Sample.gamma])
                [Emitted "commandLoaded" Sample.gamma None]
                [[Sample.alpha; Sample.gamma]],
        Ok tt).
Proof.
  repeat split; simpl; auto.
Qed.

(** The guard depends on the order of registration: the same two
    commands are refused the other way round. *)
Lemma addCommand_order_dependent :
  snd (addCommand (IsCommand Sample.bravo)
                  (start (Sample.bot_with [Sample.alpha])))
  = Throw (AlreadyRegistered (Some (Js.lit "b")))
  /\ snd (addCommand (IsCommand Sample.alpha)
                     (start (Sample.bot_with [Sample.bravo])))
     = Ok tt.
Proof. split; reflexivity. Qed.

(** ** Dispatch *)

(** [splitPrefixFromContent] returns two strings or [[null, null]]. *)
Lemma splitPrefix_no_text c m p :
  splitPrefixFromContent c m = (Some p, None) -> False.
Proof.
  unfold splitPrefixFromContent, splitPrefix_branch.
  destruct (prefixForMessage c m) as [q|].
  - destruct (Js.startsWith (content m) q); [discriminate|].
    destruct (if allowMention c then _ else _); [discriminate|].
    destruct (negb (guild m)); discriminate.
  - destruct (if allowMention c then _ else _); [discriminate|].
    destruct (negb (guild m)); discriminate.
Qed.

Lemma split_at_head {A} (x a : A) (l1 l2 l : list A) :
  l1 ++ x :: l2 = a :: l ->
  (l1 = [] /\ x = a /\ l2 = l) \/ (exists l1', l1 = a :: l1' /\ l1' ++ x :: l2 = l).
Proof.
  destruct l1 as [|b l1]; simpl; intros [= -> <-]; [left | right]; eauto.
Qed.

(** Where a call can be in the events of a named dispatch. *)
Lemma named_call_located l1 l2 cmd m args p cn k msg args' p' n rest :
  l1 ++ Executed cmd m args p cn :: l2
  = Emitted "preCommand" k (Some msg) :: Executed k msg args' p' (Some n) :: rest ->
  rest = [] \/ rest = [Emitted "command" k (Some msg)] ->
  l1 = [Emitted "preCommand" k (Some msg)]
  /\ cmd = k /\ m = msg /\ args = args' /\ p = p' /\ cn = Some n.
Proof.
  intros H R.
  apply split_at_head in H. destruct H as [(_ & E & _) | (l & -> & H)];
    [discriminate|].
  apply split_at_head in H. destruct H as [(-> & E & _) | (l' & -> & H)].
  - injection E as -> -> -> -> ->. repeat split.
  - exfalso. destruct R as [-> | ->].
    + now destruct l'.
    + apply split_at_head in H.
      destruct H as [(_ & E & _) | (l & _ & H)]; [discriminate|].
      now destruct l.
Qed.

Section DispatchFacts.

Variable execute :
  Command -> Client -> Message -> list jsstr -> option jsstr -> cname ->
  Execution.

(** A message that is not ignored and has text after its prefix goes
    to the lookup of its first word. *)
Lemma handleMessage_named c m a prefix s :
  author m = Some a -> ignoreBots c && bot a = false ->
  splitPrefixFromContent c m = (prefix, Some s) -> s <> [] ->
  handleMessage execute c m = dispatch_named execute c m prefix s [].
Proof.
  intros Ha Hb Hs Hne. unfold handleMessage. rewrite Ha, Hb, Hs.
  destruct s; [congruence | reflexivity].
Qed.

Lemma handleMessage_invokes c m cmd prefix args n :
  invokes c m cmd prefix args n ->
  handleMessage execute c m
  = let called := [Emitted "preCommand" cmd (Some m);
                   Executed cmd m args prefix (Some n)] in
    match execute cmd c m args prefix (Some n) with
    | Throws e => (called, Rejected e)
    | Returns (Rejects e) => (called, Rejected e)
    | Returns Never => (called, Pending)
    | Returns Fulfils =>
        (called ++ [Emitted "command" cmd (Some m)], Resolved)
    end.
Proof.
  intros (a & s & Ha & Hb & Hs & Hne & -> & -> & Hc).
  rewrite (handleMessage_named _ _ Ha Hb Hs Hne).
  unfold dispatch_named. rewrite Hc. reflexivity.
Qed.

(** The shape of what [dispatch_named] does after [before]. *)
Lemma dispatch_named_shape c m prefix s before :
  let n := hd [] (Js.split 32 s) in
  let args := tl (Js.split 32 s) in
  fst (dispatch_named execute c m prefix s before) = before
  \/ exists cmd rest,
      commandForName c (Some n) = Some cmd
      /\ fst (dispatch_named execute c m prefix s before)
         = before ++ Emitted "preCommand" cmd (Some m)
                  :: Executed cmd m args prefix (Some n) :: rest
      /\ (rest = [] \/ rest = [Emitted "command" cmd (Some m)]).
Proof.
  intros n args. subst n args. unfold dispatch_named.
  destruct (commandForName c (Some (hd [] (Js.split 32 s)))) as [cmd|];
    [right | now left].
  destruct (execute cmd c m (tl (Js.split 32 s)) prefix
                    (Some (hd [] (Js.split 32 s)))) as [e|[|e|]]; simpl.
  - exists cmd, []. auto.
  - exists cmd, [Emitted "command" cmd (Some m)].
    rewrite <- app_assoc. auto.
  - exists cmd, []. auto.
  - exists cmd, []. auto.
Qed.

(** The shape of what [handleMessage] does: nothing, the dispatch of
    a named command, or the call of the default command, after which
    the dispatch of a named command goes on with the empty text. *)
Lemma handleMessage_shape c m :
  fst (handleMessage execute c m) = []
  \/ (exists prefix s,
        fst (handleMessage execute c m)
        = fst (dispatch_named execute c m prefix s []))
  \/ (exists pfx d,
        splitPrefixFromContent c m = (Some pfx, Some [])
        /\ prefix_is_mention c pfx = true
        /\ commandForName c None = Some d
        /\ (fst (handleMessage execute c m)
            = [Executed d m [] (Some pfx) None]
            \/ fst (handleMessage execute c m)
               = fst (dispatch_named execute c m (Some pfx) []
                                     [Executed d m [] (Some pfx) None]))).
Proof.
  unfold handleMessage.
  destruct (author m) as [a|]; [|now left].
  destruct (ignoreBots c && bot a); [now left|].
  destruct (splitPrefixFromContent c m) as [prefix [s|]] eqn:E; simpl.
  - destruct s as [|ch s]; simpl.
    + destruct prefix as [p|]; [|now left].
      destruct (Js.truthy p); simpl; [|now left].
      destruct (prefix_is_mention c p) eqn:Hm; simpl; [|now left].
      destruct (commandForName c None) as [d|] eqn:Hd; [|now left].
      right. right. exists p, d. repeat split; trivial.
      destruct (execute d c m [] (Some p) None); simpl; auto.
    + right. left. now exists prefix, (ch :: s).
  - destruct prefix as [p|]; [|now left].
    now elim (splitPrefix_no_text c m E).
Qed.

(** C3 (amended). Every call of a handler made for a command name is
    made right after the [preCommand] event of that command and
    message.  The only other call is the first thing the dispatcher
    does on a lone mention: the default command, the one named [null],
    is called with no arguments and no command name, and no event is
    emitted for it. *)
Theorem preCommand_precedes_named_call c msg l1 l2 cmd m args p cn :
  fst (handleMessage execute c msg) = l1 ++ Executed cmd m args p cn :: l2 ->
  (exists n l0,
      cn = Some n /\ commandForName c (Some n) = Some cmd /\ m = msg
      /\ l1 = l0 ++ [Emitted "preCommand" cmd (Some msg)])
  \/ (cn = None /\ commandForName c None = Some cmd /\ m = msg
      /\ l1 = [] /\ args = []
      /\ exists pfx,
          p = Some pfx /\ prefix_is_mention c pfx = true
          /\ splitPrefixFromContent c msg = (Some pfx, Some [])).
Proof.
  intros H. symmetry in H.
  destruct (handleMessage_shape c msg)
    as [E | [(prefix & s & E) | (pfx & d & Hs & Hm & Hd & E)]].
  - rewrite E in H. now destruct l1.
  - rewrite E in H.
    destruct (dispatch_named_shape c msg prefix s [])
      as [E' | (k & rest & Hk & E' & R)]; rewrite E' in H.
    + now destruct l1.
    + simpl in H.
      apply named_call_located in H; [|exact R].
      destruct H as (-> & -> & -> & _ & _ & ->).
      left. exists (hd [] (Js.split 32 s)), []. auto.
  - assert (B : l1 ++ Executed cmd m args p cn :: l2
                = [Executed d msg [] (Some pfx) None] ->
                cn = None /\ commandForName c None = Some cmd /\ m = msg
                /\ l1 = [] /\ args = []
                /\ exists pfx0,
                    p = Some pfx0 /\ prefix_is_mention c pfx0 = true
                    /\ splitPrefixFromContent c msg = (Some pfx0, Some [])).
    { intros B. apply split_at_head in B.
      destruct B as [(-> & B & _) | (l & _ & B)]; [|now destruct l].
      injection B as -> -> -> -> ->. repeat split; trivial.
      exists pfx. auto. }
    destruct E as [E | E]; rewrite E in H; [right; now apply B|].
    destruct (dispatch_named_shape c msg (Some pfx) []
                                   [Executed d msg [] (Some pfx) None])
      as [E' | (k & rest & Hk & E' & R)]; rewrite E' in H;
      [right; now apply B|].
    simpl in H. apply split_at_head in H.
    destruct H as [(-> & H & _) | (l & -> & H)].
    + right. injection H as -> -> -> -> ->. repeat split; trivial.
      exists pfx. auto.
    + apply named_call_located in H; [|exact R].
      destruct H as (-> & -> & -> & _ & _ & ->).
      left. exists [], [Executed d msg [] (Some pfx) None]. auto.
Qed.

(** C1 (amended). When the handler of a command called by name
    raises, [handleMessage] does not catch the error: after the
    [preCommand] event and the call, its promise is rejected with the
    error of the handler, and neither an [error] nor a [command] event
    is emitted.  What becomes of the rejected promise is decided by the
    caller of the listener, not by [handleMessage]. *)
Theorem handler_error_rejects_dispatch c m1 cmd1 p1 args1 n1 e :
  invokes c m1 cmd1 p1 args1 n1 ->
  raises (execute cmd1 c m1 args1 p1 (Some n1)) e ->
  handleMessage execute c m1
  = ([Emitted "preCommand" cmd1 (Some m1);
      Executed cmd1 m1 args1 p1 (Some n1)],
     Rejected e)
  /\ (forall k m, ~ In (Emitted "error" k m)
                       (fst (handleMessage execute c m1)))
  /\ (forall k m, ~ In (Emitted "command" k m)
                       (fst (handleMessage execute c m1))).
Proof.
  intros H1 R.
  assert (E : handleMessage execute c m1
              = ([Emitted "preCommand" cmd1 (Some m1);
                  Executed cmd1 m1 args1 p1 (Some n1)],
                 Rejected e)).
  { rewrite (handleMessage_invokes H1). destruct R as [-> | ->]; reflexivity. }
  rewrite E. simpl. repeat split.
  - intros k m [F | [F | []]]; discriminate.
  - intros k m [F | [F | []]]; discriminate.
Qed.


End DispatchFacts.

Lemma preCommand_precedes_named_call_witness :
  exists n l0,
    Some (Js.lit "ping") = Some n
    /\ commandForName (Sample.bot_with [Sample.ping; Sample.help]) (Some n)
       = Some Sample.ping
    /\ Sample.user "!ping a" true = Sample.user "!ping a" true
    /\ [Emitted "preCommand" Sample.ping (Some (Sample.user "!ping a" true))]
       = l0 ++ [Emitted "preCommand" Sample.ping
                        (Some (Sample.user "!ping a" true))].
Proof.
  destruct (@preCommand_precedes_named_call
              Sample.run (Sample.bot_with [Sample.ping; Sample.help])
              (Sample.user "!ping a" true)
              [Emitted "preCommand" Sample.ping
                       (Some (Sample.user "!ping a" true))]
              [Emitted "command" Sample.ping
                       (Some (Sample.user "!ping a" true))]
              Sample.ping (Sample.user "!ping a" true) [Js.lit "a"]
              (Some (Js.lit "!")) (Some (Js.lit "ping")) eq_refl)
    as [H | (H & _)].
  - exact H.
  - discriminate H.
Defined.

(** C3, as stated, fails on a lone mention: the help command, which has
    the name [null], is called, and no [preCommand] event comes before
    the call. *)
Lemma bare_mention_call_not_announced :
  handleMessage Sample.run (Sample.bot_with [Sample.ping; Sample.help])
                (Sample.user "<@123>" true)
  = ([Executed Sample.help (Sample.user "<@123>" true) []
               (Some (Js.lit "<@123>")) None],
     Resolved).
Proof. reflexivity. Qed.

Lemma handler_error_rejects_dispatch_witness :
  handleMessage Sample.run
                (Sample.bot_with [Sample.ping; Sample.help; Sample.boom])
                (Sample.user "!boom now" true)
  = ([Emitted "preCommand" Sample.boom (Some (Sample.user "!boom now" true));
      Executed Sample.boom (Sample.user "!boom now" true) [Js.lit "now"]
               (Some (Js.lit "!")) (Some (Js.lit "boom"))],
     Rejected (HandlerError 13)).
Proof.
  refine (proj1 (@handler_error_rejects_dispatch
                   Sample.run
                   (Sample.bot_with [Sample.ping; Sample.help; Sample.boom])
                   (Sample.user "!boom now" true) Sample.boom
                   (Some (Js.lit "!")) [Js.lit "now"] (Js.lit "boom")
                   (HandlerError 13) _ _)).
  - exists (mkAuthor false), (Js.lit "boom now").
    repeat split; try reflexivity. discriminate.
  - left. reflexivity.
Defined.

(** C1, as stated, fails: the handler of [boom] throws, the promise of
    [handleMessage] is rejected with that error, and no [error] event is
    emitted. *)
Lemma handler_error_is_not_caught :
  snd (handleMessage Sample.run
         (Sample.bot_with [Sample.ping; Sample.help; Sample.boom])
         (Sample.user "!boom now" true))
  = Rejected (HandlerError 13)
  /\ forall k m,
      ~ In (Emitted "error" k m)
           (fst (handleMessage Sample.run
                   (Sample.bot_with [Sample.ping; Sample.help; Sample.boom])
                   (Sample.user "!boom now" true))).
Proof.
  split; [reflexivity|].
  intros k m [F | [F | []]]; discriminate.
Qed.



(** ** Reloading *)


Lemma holders_app n (a b : list Command) :
  holders n (a ++ b) = holders n a ++ holders n b.
Proof. apply filter_app. Qed.

Lemma nth_error_middle {A} (l l' : list A) (x : A) :
  nth_error ((l ++ [x]) ++ l') (List.length l) = Some x.
Proof. induction l; simpl; auto. Qed.

Lemma firstn_middle {A} (l l' : list A) (x : A) :
  firstn (List.length l) ((l ++ [x]) ++ l') = l.
Proof. induction l; simpl; congruence. Qed.

Lemma skipn_middle {A} (l l' : list A) (x : A) :
  skipn (S (List.length l)) ((l ++ [x]) ++ l') = l'.
Proof. induction l; simpl; auto. Qed.

Lemma tracked_filename (k : Command) :
  tracked k = true -> exists f, filename k = Some f /\ Js.truthy f = true.
Proof.
  unfold tracked. destruct (filename k) as [f|]; simpl; [eauto | discriminate].
Qed.


Section ReloadFacts.

Variable reload : jsstr -> option Value.

Lemma addCommandFile_loads f v w :
  reload f = Some (IsCommand v) ->
  commandForName (client w) (name v) = None ->
  addCommandFile reload f w
  = (mkWorld (set_commands (client w)
                           (commands (client w) ++ [set_filename v f]))
             (log w ++ [Emitted "commandLoaded" (set_filename v f) None])
             (history w ++ [commands (client w) ++ [set_filename v f]]),
     Ok tt).
Proof.
  intros L N. unfold addCommandFile. rewrite L.
  now apply addCommand_accepts.
Qed.

(** [addCommandFile] registers what the file exports, or throws and
    leaves the client as it was. *)
Lemma addCommandFile_cases f w :
  (exists v,
      reload f = Some (IsCommand v)
      /\ commandForName (client w) (name v) = None
      /\ addCommandFile reload f w
         = (mkWorld (set_commands (client w)
                                  (commands (client w) ++ [set_filename v f]))
                    (log w ++ [Emitted "commandLoaded" (set_filename v f) None])
                    (history w ++ [commands (client w) ++ [set_filename v f]]),
            Ok tt))
  \/ exists e, addCommandFile reload f w = (w, Throw e).
Proof.
  destruct (reload f) as [[| |v]|] eqn:L.
  - right. exists TypeError. unfold addCommandFile. now rewrite L.
  - right. exists TypeError. unfold addCommandFile. now rewrite L.
  - destruct (commandForName (client w) (name v)) as [d|] eqn:N.
    + right. exists (AlreadyRegistered (name v)).
      unfold addCommandFile. rewrite L.
      apply (@addCommand_rejects (set_filename v f) d). exact N.
    + left. exists v. repeat split; trivial.
      now apply addCommandFile_loads.
  - right. exists LoadError. unfold addCommandFile. now rewrite L.
Qed.

(** One turn of the loop on a command that no file is known for. *)
Lemma reload_loop_untracked i w k :
  nth_error (commands (client w)) i = Some k -> tracked k = false ->
  reload_loop reload (S i) w = reload_loop reload i w.
Proof.
  intros E T. simpl. unfold bind at 1. simpl. rewrite E.
  unfold tracked in T. destruct (filename k) as [f|]; trivial.
  simpl in T. now rewrite T.
Qed.

(** One turn of the loop on a command loaded from the file [f]. *)
Lemma reload_loop_tracked i w k f :
  nth_error (commands (client w)) i = Some k ->
  filename k = Some f -> Js.truthy f = true ->
  reload_loop reload (S i) w
  = let cs := firstn i (commands (client w))
                ++ skipn (S i) (commands (client w)) in
    match addCommandFile reload f
                         (mkWorld (set_commands (client w) cs) (log w)
                                  (history w ++ [cs])) with
    | (w2, Ok _) => reload_loop reload i w2
    | (w2, Throw e) => (w2, Throw e)
    end.
Proof.
  intros E F T. simpl. unfold bind at 1. simpl. rewrite E, F, T.
  reflexivity.
Qed.

End ReloadFacts.

Section ReloadPass.

Variable reload : jsstr -> option Value.



(** *** Reloading files that did not change *)

Lemma includes_same_names a b n :
  same_names a b -> includes (names a) n = includes (names b) n.
Proof.
  intros S. destruct (includes (names b) n) eqn:E.
  - apply includes_In. apply S. now apply includes_In.
  - apply includes_not_In. intros H. apply S in H.
    apply includes_In in H. congruence.
Qed.

Lemma holders_one n (k : Command) :
  holders n [k] = if includes (names k) n then [k] else [].
Proof. reflexivity. Qed.

Lemma commandForName_no_holder c n :
  holders n (commands c) = [] -> commandForName c n = None.
Proof.
  unfold commandForName, holders.
  induction (commands c) as [|k l IH]; cbn [filter find]; trivial.
  destruct (includes (names k) n); [discriminate | exact IH].
Qed.

(** The loop on a registry whose names are unique, when every file
    gives a command with the names of the one it replaces: the loop
    ends without an error, and every name keeps as many holders. *)
Lemma reload_loop_keeps_names pre :
  forall post w,
    commands (client w) = pre ++ post ->
    names_unique (pre ++ post) ->
    (forall k, In k pre -> tracked k = true ->
               exists f v, filename k = Some f
                           /\ reload f = Some (IsCommand v)
                           /\ same_names v k) ->
    exists w',
      reload_loop reload (List.length pre) w = (w', Ok tt)
      /\ forall n, List.length (holders n (commands (client w')))
                   = List.length (holders n (pre ++ post)).
Proof.
  induction pre as [|k pre' IH] using rev_ind; intros post w C U F.
  - exists w. simpl. split; trivial. intros n. now rewrite C.
  - rewrite length_app, Nat.add_1_r.
    assert (E : nth_error (commands (client w)) (List.length pre') = Some k)
      by (rewrite C; apply nth_error_middle).
    destruct (tracked k) eqn:T.
    + destruct (F k) as (f & v & Fk & L & S); trivial.
      { apply in_or_app. right. now left. }
      assert (Tf : Js.truthy f = true).
      { unfold tracked in T. now rewrite Fk in T. }
      rewrite (reload_loop_tracked reload _ _ E Fk Tf).
      rewrite C, firstn_middle, skipn_middle. cbv zeta.
      assert (Hk : includes (names k) (name v) = true).
      { apply includes_In. apply S. now left. }
      assert (N : holders (name v) (pre' ++ post) = []).
      { apply length_zero_iff_nil. specialize (U (name v)).
        rewrite !holders_app, holders_one, Hk, !length_app in U.
        rewrite holders_app, length_app. simpl in U. lia. }
      rewrite (@addCommandFile_loads reload f v _ L)
        by (apply commandForName_no_holder; exact N).
      simpl.
      assert (Q : forall n,
                 List.length (holders n (pre' ++ post ++ [set_filename v f]))
                 = List.length (holders n ((pre' ++ [k]) ++ post))).
      { intros n. rewrite !holders_app, !holders_one, !length_app.
        change (names (set_filename v f)) with (names v).
        rewrite (includes_same_names n S).
        destruct (includes (names k) n); simpl; lia. }
      destruct (IH (post ++ [set_filename v f])
                   (mkWorld
                      (set_commands (set_commands (client w) (pre' ++ post))
                                    ((pre' ++ post) ++ [set_filename v f]))
                      (log w ++ [Emitted "commandLoaded" (set_filename v f) None])
                      ((history w ++ [pre' ++ post])
                         ++ [(pre' ++ post) ++ [set_filename v f]])))
        as (w' & R & K).
      * simpl. now rewrite <- app_assoc.
      * intros n. rewrite Q. apply U.
      * intros k0 I0. apply F. apply in_or_app. now left.
      * exists w'. split; trivial. intros n. now rewrite K, Q.
    + rewrite (reload_loop_untracked reload _ _ E T).
      destruct (IH (k :: post) w) as (w' & R & K).
      * now rewrite C, <- app_assoc.
      * now rewrite <- app_assoc in U.
      * intros k0 I0. apply F. apply in_or_app. now left.
      * exists w'. split; trivial. intros n. rewrite K.
        now rewrite <- app_assoc.
Qed.

Lemma in_all_names n (cs : list Command) :
  In n (all_names cs) <-> 0 < List.length (holders n cs).
Proof.
  unfold all_names, holders.
  induction cs as [|k cs IH]; cbn [flat_map filter].
  - simpl. split; [tauto | lia].
  - rewrite in_app_iff, IH. destruct (includes (names k) n) eqn:E.
    + apply includes_In in E. cbn [List.length]. split; [lia | tauto].
    + apply includes_not_In in E. tauto.
Qed.

(** Reloading is without effect on the names of a registry in which no
    name is held twice, when the files did not change. *)
Lemma reloadCommands_keeps_names c :
  names_unique (commands c) ->
  (forall k, In k (commands c) -> tracked k = true ->
             exists f v, filename k = Some f
                         /\ reload f = Some (IsCommand v)
                         /\ same_names v k) ->
  exists w',
    reloadCommands reload (start c) = (w', Ok tt)
    /\ names_unique (commands (client w'))
    /\ forall n, In n (all_names (commands (client w')))
                 <-> In n (all_names (commands c)).
Proof.
  intros U F.
  destruct (@reload_loop_keeps_names (commands c) [] (start c))
    as (w' & R & K).
  - simpl. now rewrite app_nil_r.
  - now rewrite app_nil_r.
  - exact F.
  - rewrite app_nil_r in K. exists w'. split; [exact R|]. split.
    + intros n. rewrite K. apply U.
    + intros n. now rewrite !in_all_names, K.
Qed.

End ReloadPass.


(** C8. The registry is made by [addCommandFile('g.js')], which loads
    the command [b] with the alias [c], and by [addCommand] of a command
    [a] with the alias [b].  The file does not change, and yet
    [reloadCommands] throws: the reloaded command [b] meets the alias
    of [a].  The command of the file is lost, and with it the name
    [c]. *)
Theorem reloadCommands_loses_unchanged_command :
  (bind (addCommandFile Sample.disk (Js.lit "g.js"))
        (fun _ => addCommand (IsCommand Sample.alpha)))
    (start (Sample.bot_with []))
  = (mkWorld (Sample.bot_with [Sample.beta; Sample.alpha])
             [loaded Sample.beta; loaded Sample.alpha]
             [[Sample.beta]; [Sample.beta; Sample.alpha]],
     Ok tt)
  /\ reloaded Sample.disk Sample.beta Sample.beta
  /\ reloadCommands Sample.disk
                    (start (Sample.bot_with [Sample.beta; Sample.alpha]))
     = (mkWorld (Sample.bot_with [Sample.alpha]) [] [[Sample.alpha]],
        Throw (AlreadyRegistered (Some (Js.lit "b"))))
  /\ In (Some (Js.lit "c")) (all_names [Sample.beta; Sample.alpha])
  /\ ~ In (Some (Js.lit "c")) (all_names [Sample.alpha]).
Proof.
  split; [reflexivity|]. split.
  { exists (Js.lit "g.js"), (Sample.cmd "b" ["c"] 7). repeat split. }
  split; [reflexivity|]. split.
  - simpl. tauto.
  - simpl. intros [H | [H | []]]; discriminate.
Qed.

(* ================================================================== *)
(** * Further properties *)

(** ** Strings *)

Lemma strip_app (p s : jsstr) : Js.strip p (p ++ s) = Some s.
Proof.
  induction p as [|a p IH]; simpl; [apply strip_nil|].
  now rewrite N.eqb_refl.
Qed.

Lemma strip_Some (p s r : jsstr) : Js.strip p s = Some r -> s = p ++ r.
Proof.
  revert s. induction p as [|a p IH]; intros s; simpl.
  - destruct s; intros [= <-]; reflexivity.
  - destruct s as [|b s]; [discriminate|].
    destruct (N.eqb a b) eqn:E; [|discriminate].
    apply N.eqb_eq in E. subst b. intros H. now rewrite (IH s H).
Qed.

Lemma startsWith_app (p s : jsstr) : Js.startsWith (p ++ s) p = true.
Proof. unfold Js.startsWith. now rewrite strip_app. Qed.

Lemma startsWith_true (s p : jsstr) :
  Js.startsWith s p = true -> s = p ++ Js.substr s (List.length p).
Proof.
  unfold Js.startsWith, Js.substr. destruct (Js.strip p s) as [r|] eqn:E;
    [|discriminate].
  intros _. apply strip_Some in E. subst s.
  now rewrite skipn_app, skipn_all, Nat.sub_diag.
Qed.

(** The decimal numeral of an id is made of digits. *)
Lemma decimal_digits (id : N) :
  Forall (fun ch => (48 <= ch <= 57)%N) (Js.decimal id).
Proof.
  assert (D : forall d,
             Forall (fun ch => (48 <= ch <= 57)%N)
                    (Js.lit (NilEmpty.string_of_uint d))).
  { induction d; simpl; constructor; trivial; cbv; split; discriminate. }
  unfold Js.decimal, NilZero.string_of_uint.
  destruct (N.to_uint id); try apply D.
  repeat constructor; cbv; discriminate.
Qed.

Lemma decimal_no_bang (id : N) (rest t : jsstr) :
  Js.decimal id ++ 62%N :: rest <> 33%N :: t.
Proof.
  pose proof (decimal_digits id) as D.
  destruct (Js.decimal id) as [|ch l]; simpl; [discriminate|].
  intros [= -> _]. inversion D as [|? ? [H _] _]. now apply H.
Qed.

(** ** Mentions *)

(** The optional [!] of the mention expression. *)
Lemma bang_absent (s : jsstr) :
  (forall t, s <> 33%N :: t) ->
  match s with 33%N :: t => ([33%N], t) | _ => ([], s) end = ([], s).
Proof.
  intros H. destruct s as [|ch t]; trivial.
  destruct ch as [|q]; trivial.
  do 6 (destruct q as [q|q|]; trivial).
  now elim (H t).
Qed.

Lemma bang_cases (s b s2 : jsstr) :
  match s with 33%N :: t => ([33%N], t) | _ => ([], s) end = (b, s2) ->
  exists bang : bool, b = (if bang then [33%N] else []) /\ s = b ++ s2.
Proof.
  destruct s as [|ch t]; [intros [= <- <-]; now exists false|].
  destruct ch as [|q]; [intros [= <- <-]; now exists false|].
  do 6 (destruct q as [q|q|]; try (intros [= <- <-]; now exists false)).
  intros [= <- <-]. now exists true.
Qed.

Lemma lead_space_prefix (r : jsstr) :
  r = lead_space r ++ skipn (List.length (lead_space r)) r.
Proof.
  destruct r as [|ch r]; trivial. simpl.
  destruct (Js.is_space ch); reflexivity.
Qed.

(** The mention expression matches a text that starts with a mention of
    the user, in either form, and takes one white-space character after
    it when there is one. *)
Lemma mention_match_recognises (id : N) (bang : bool) (rest : jsstr) :
  mention_match (Some id) (mention_text id bang ++ rest)
  = Some (mention_text id bang ++ lead_space rest).
Proof.
  unfold mention_match, mention_text. rewrite <- !app_assoc, strip_app.
  destruct bang.
  - change ([33%N] ++ Js.decimal id ++ [62%N] ++ rest)
      with (33%N :: (Js.decimal id ++ [62%N] ++ rest)).
    cbv iota beta. rewrite strip_app. reflexivity.
  - change ([] ++ Js.decimal id ++ [62%N] ++ rest)
      with (Js.decimal id ++ 62%N :: rest).
    rewrite bang_absent by (intros t; apply decimal_no_bang).
    rewrite strip_app. reflexivity.
Qed.

(** It matches nothing else. *)
Lemma mention_match_sound (id : N) (s m : jsstr) :
  mention_match (Some id) s = Some m ->
  exists bang rest,
    s = mention_text id bang ++ rest
    /\ m = mention_text id bang ++ lead_space rest.
Proof.
  unfold mention_match, mention_text.
  destruct (Js.strip (Js.lit "<@") s) as [s1|] eqn:E1; [|discriminate].
  apply strip_Some in E1.
  destruct (match s1 with 33%N :: t => ([33%N], t) | _ => ([], s1) end)
    as [b s2] eqn:B.
  apply bang_cases in B. destruct B as (bang & Hb & E2).
  destruct (Js.strip (Js.decimal id) s2) as [s3|] eqn:E3; [|discriminate].
  apply strip_Some in E3.
  destruct s3 as [|ch s4]; [discriminate|].
  destruct ch as [|q]; [discriminate|].
  do 6 (destruct q as [q|q|]; try discriminate).
  intros [= <-]. exists bang, s4. subst. rewrite <- !app_assoc. split; reflexivity.
Qed.

Lemma skipn_exact {A} (a c : list A) : skipn (List.length a) (a ++ c) = c.
Proof. now rewrite skipn_app, skipn_all, Nat.sub_diag. Qed.

Lemma mention_match_splits (id : N) (s m : jsstr) :
  mention_match (Some id) s = Some m -> s = m ++ Js.substr s (List.length m).
Proof.
  intros H. destruct (mention_match_sound _ _ H) as (bang & rest & -> & ->).
  unfold Js.substr. pose proof (lead_space_prefix rest) as P.
  remember (lead_space rest) as L eqn:HL.
  remember (skipn (List.length L) rest) as R eqn:HR.
  clear HL HR. subst rest.
  rewrite (app_assoc (mention_text id bang) L R), skipn_exact.
  reflexivity.
Qed.

(** ** More on the prefix resolver *)

(** X1. Once the ready event has set the mention expression, the two
    strings that [splitPrefixFromContent] returns are a split of the
    content of the message: the prefix, then the rest. *)
Theorem resolved_prefix_splits_content c msg id p r :
  mentionPrefixRegExp c = Some id ->
  splitPrefixFromContent c msg = (Some p, Some r) ->
  content msg = p ++ r.
Proof.
  intros R. unfold splitPrefixFromContent, splitPrefix_branch. rewrite R.
  assert (M : forall q,
             (if allowMention c
              then mention_match (Some id) (content msg) else None) = Some q ->
             content msg = q ++ Js.substr (content msg) (List.length q)).
  { destruct (allowMention c); [|discriminate].
    intros q. apply mention_match_splits. }
  assert (T : snd (match (if allowMention c
                          then mention_match (Some id) (content msg)
                          else None) with
                   | Some m0 =>
                       (ByMention,
                        (Some m0,
                         Some (Js.substr (content msg) (List.length m0))))
                   | None =>
                       if negb (guild msg)
                       then (ByDirect, (Some [], Some (content msg)))
                       else (NoMatch, (None, None))
                   end) = (Some p, Some r) -> content msg = p ++ r).
  { destruct (if allowMention c then _ else _) as [q|] eqn:Q.
    - simpl. intros [= <- <-]. now apply M.
    - destruct (negb (guild msg)); simpl; [|discriminate].
      now intros [= <- <-]. }
  destruct (prefixForMessage c msg) as [q|]; [|exact T].
  destruct (Js.startsWith (content msg) q) eqn:S; [|exact T].
  simpl. intros [= <- <-]. now apply startsWith_true.
Qed.

Lemma resolved_prefix_splits_content_witness :
  Js.lit "<@123> ping a" = Js.lit "<@123> " ++ Js.lit "ping a".
Proof.
  exact (@resolved_prefix_splits_content
           (Sample.bot_with []) (Sample.user "<@123> ping a" true) 123%N
           (Js.lit "<@123> ") (Js.lit "ping a") eq_refl eq_refl).
Defined.

(** A mention at the start of a message that does not start with the
    prefix of its channel. *)
Lemma mention_is_recognised_aux c msg id bang rest :
  mentionPrefixRegExp c = Some id ->
  allowMention c = true ->
  content msg = mention_text id bang ++ rest ->
  (forall p, prefixForMessage c msg = Some p ->
             Js.startsWith (content msg) p = false) ->
  splitPrefix_branch c msg
  = (ByMention,
     (Some (mention_text id bang ++ lead_space rest),
      Some (skipn (List.length (lead_space rest)) rest))).
Proof.
  intros R A C P. unfold splitPrefix_branch.
  assert (E : match prefixForMessage c msg with
              | Some p =>
                  if Js.startsWith (content msg) p
                  then Some (p, Js.substr (content msg) (List.length p))
                  else None
              | None => None
              end = None).
  { destruct (prefixForMessage c msg) as [p|]; trivial. now rewrite (P p). }
  rewrite E, R, A, C, mention_match_recognises. unfold Js.substr.
  do 3 f_equal.
  pose proof (lead_space_prefix rest) as L.
  remember (lead_space rest) as l eqn:Hl. clear Hl.
  rewrite L at 1. rewrite app_assoc, skipn_exact. reflexivity.
Qed.

(** X2. After the ready event of the user [id], when mentions are
    allowed, a message that starts with [<@id>] or [<@!id>] and not with
    the prefix of its channel resolves by the mention: the prefix is the
    mention with the white-space character that follows it, if any, and
    only that one. *)
Theorem mention_is_recognised c msg id bang rest :
  mentionPrefixRegExp c = Some id ->
  allowMention c = true ->
  content msg = mention_text id bang ++ rest ->
  (forall p, prefixForMessage c msg = Some p ->
             Js.startsWith (content msg) p = false) ->
  splitPrefix_branch c msg
  = (ByMention,
     (Some (mention_text id bang ++ lead_space rest),
      Some (skipn (List.length (lead_space rest)) rest))).
Proof. apply mention_is_recognised_aux. Qed.

Lemma mention_is_recognised_witness :
  splitPrefix_branch (Sample.bot_with []) (Sample.user "<@!123>  ping" true)
  = (ByMention, (Some (Js.lit "<@!123> "), Some (Js.lit " ping"))).
Proof.
  apply (@mention_is_recognised
           (Sample.bot_with []) (Sample.user "<@!123>  ping" true)
           123%N true (Js.lit "  ping")).
  - reflexivity.
  - reflexivity.
  - reflexivity.
  - intros p [= <-]. reflexivity.
Defined.

(** X3. After the ready event of the user [id], a message resolves by
    the mention branch only when mentions are allowed and its content
    starts with a mention of that user, [<@id>] or [<@!id>]; what the
    branch returns is fixed by the content. *)
Theorem mention_branch_is_sound c msg id p r :
  mentionPrefixRegExp c = Some id ->
  splitPrefix_branch c msg = (ByMention, (p, r)) ->
  allowMention c = true
  /\ exists bang rest,
      content msg = mention_text id bang ++ rest
      /\ p = Some (mention_text id bang ++ lead_space rest)
      /\ r = Some (skipn (List.length (lead_space rest)) rest).
Proof.
  intros R. unfold splitPrefix_branch. rewrite R.
  destruct (match prefixForMessage c msg with
            | Some q =>
                if Js.startsWith (content msg) q
                then Some (q, Js.substr (content msg) (List.length q))
                else None
            | None => None
            end) as [[q rest]|]; [discriminate|].
  destruct (allowMention c).
  - destruct (mention_match (Some id) (content msg)) as [m|] eqn:M.
    + intros H. injection H as Hp Hr. subst p r. split; trivial.
      destruct (mention_match_sound _ _ M) as (bang & rest & C & ->).
      exists bang, rest. repeat split; trivial.
      rewrite C. unfold Js.substr. do 1 f_equal.
      pose proof (lead_space_prefix rest) as L.
      remember (lead_space rest) as l eqn:Hl. clear Hl.
      rewrite L at 1. rewrite app_assoc, skipn_exact. reflexivity.
    + destruct (negb (guild msg)); discriminate.
  - destruct (negb (guild msg)); discriminate.
Qed.

Lemma mention_branch_is_sound_witness :
  allowMention (Sample.bot_with []) = true.
Proof.
  exact (proj1 (@mention_branch_is_sound
                  (Sample.bot_with []) (Sample.user "<@123>ping" true) 123%N
                  (Some (Js.lit "<@123>")) (Some (Js.lit "ping"))
                  eq_refl eq_refl)).
Defined.

(** X4. A client made with the empty prefix gets the warning of the
    constructor, and for every client with that prefix every message, in
    a guild or not, resolves by the prefix branch to the empty prefix
    and its whole content: no prefix is needed anywhere. *)
Theorem empty_prefix_needs_no_prefix (o : Options) :
  opt_prefix o = Given [] ->
  In EmptyPrefixWarning (snd (construct (Some o)))
  /\ forall c,
      defaultPrefix c = defaultPrefix (fst (construct (Some o))) ->
      forall msg,
        splitPrefix_branch c msg
        = (ByPrefix, (Some [], Some (content msg))).
Proof.
  intros P. split.
  - unfold construct. simpl. rewrite P. now left.
  - intros c D msg. unfold construct in D. simpl in D. rewrite P in D.
    unfold splitPrefix_branch, prefixForMessage, Js.startsWith.
    rewrite D. destruct (guild msg); now rewrite strip_nil.
Qed.

Lemma empty_prefix_needs_no_prefix_witness :
  In EmptyPrefixWarning
     (snd (construct (Some (mkOptions (Given []) Missing Missing true)))).
Proof.
  exact (proj1 (empty_prefix_needs_no_prefix
                  (mkOptions (Given []) Missing Missing true) eq_refl)).
Defined.

(** X5. The constructor warns about the prefix exactly when it is the
    empty string (not when it is missing), and about the storage exactly
    when none is given; the new client has no command and no mention
    expression. *)
Theorem construct_warnings (o : option Options) :
  (In EmptyPrefixWarning (snd (construct o))
   <-> exists o', o = Some o' /\ opt_prefix o' = Given [])
  /\ (In NoStorageWarning (snd (construct o))
      <-> o = None \/ exists o', o = Some o' /\ opt_storage o' = false)
  /\ commands (fst (construct o)) = []
  /\ mentionPrefixRegExp (fst (construct o)) = None.
Proof.
  destruct o as [[p a i s]|]; unfold construct; simpl.
  - repeat split; trivial.
    + intros H. eexists. split; [reflexivity|]. simpl.
      destruct p as [| |[|ch q]]; destruct s; simpl in H;
        intuition discriminate.
    + intros (o' & [= <-] & E). simpl in E. rewrite E. now left.
    + intros H. right. eexists. split; [reflexivity|]. simpl.
      destruct p as [| |[|ch q]]; destruct s; simpl in H;
        intuition discriminate.
    + intros [H | (o' & [= <-] & E)]; [discriminate|]. simpl in E.
      rewrite E. apply in_or_app. right. now left.
  - repeat split; trivial; try tauto.
    + intros [H | []]. discriminate.
    + intros (o' & H & _). discriminate.
Qed.

(** ** Words *)

Lemma split_cons (sep : N) (s : jsstr) :
  Js.split sep s = hd [] (Js.split sep s) :: tl (Js.split sep s).
Proof.
  destruct s as [|ch s]; simpl; trivial.
  destruct (N.eqb ch sep); trivial.
  destruct (Js.split sep s); reflexivity.
Qed.

Lemma join_with_head (sep ch : N) (w : jsstr) (ws : list jsstr) :
  join_with sep ((ch :: w) :: ws) = ch :: join_with sep (w :: ws).
Proof. destruct ws; reflexivity. Qed.

(** Joining the words of a text gives the text back. *)
Lemma join_split (sep : N) (s : jsstr) : join_with sep (Js.split sep s) = s.
Proof.
  induction s as [|ch s IH]; simpl; trivial.
  destruct (N.eqb ch sep) eqn:E.
  - apply N.eqb_eq in E. subst ch.
    rewrite (split_cons sep s) in *. simpl in *. now rewrite IH.
  - rewrite (split_cons sep s) in *.
    rewrite join_with_head. now rewrite IH.
Qed.

(** No word holds the separator. *)
Lemma split_no_sep (sep : N) (s : jsstr) :
  Forall (fun w => ~ In sep w) (Js.split sep s).
Proof.
  induction s as [|ch s IH]; simpl.
  - repeat constructor. intros [].
  - destruct (N.eqb ch sep) eqn:E.
    + constructor; trivial. intros [].
    + destruct (Js.split sep s) as [|w ws].
      * repeat constructor. intros [F | []]. subst.
        now rewrite N.eqb_refl in E.
      * inversion IH as [|? ? Hw Hws]. constructor; trivial.
        intros [F | F]; [|now apply Hw]. subst.
        now rewrite N.eqb_refl in E.
Qed.

(** ** More on dispatch *)

Lemma commandForName_In c n k : commandForName c n = Some k -> In k (commands c).
Proof. intros H. exact (proj1 (find_some _ _ H)). Qed.

Lemma prefix_is_mention_nonempty c p :
  prefix_is_mention c p = true -> Js.truthy p = true.
Proof.
  destruct p; trivial. unfold prefix_is_mention, mention_match.
  destruct (mentionPrefixRegExp c); simpl; discriminate.
Qed.

Section DispatchMore.

Variable execute :
  Command -> Client -> Message -> list jsstr -> option jsstr -> cname ->
  Execution.

(** What [handleMessage] does, with the conditions of each way. *)
Lemma handleMessage_cases c m :
  handleMessage execute c m = ([], Resolved)
  \/ (exists a p s,
        author m = Some a /\ ignoreBots c && bot a = false
        /\ splitPrefixFromContent c m = (p, Some s) /\ s <> []
        /\ handleMessage execute c m = dispatch_named execute c m p s [])
  \/ (exists a p d,
        author m = Some a /\ ignoreBots c && bot a = false
        /\ splitPrefixFromContent c m = (Some p, Some [])
        /\ prefix_is_mention c p = true
        /\ commandForName c None = Some d
        /\ ((exists e,
               execute d c m [] (Some p) None = Throws e
               /\ handleMessage execute c m
                  = ([Executed d m [] (Some p) None], Rejected e))
            \/ (exists x,
                  execute d c m [] (Some p) None = Returns x
                  /\ handleMessage execute c m
                     = dispatch_named execute c m (Some p) []
                                      [Executed d m [] (Some p) None]))).
Proof.
  unfold handleMessage.
  destruct (author m) as [a|]; [|now left].
  destruct (ignoreBots c && bot a) eqn:I; [now left|].
  destruct (splitPrefixFromContent c m) as [prefix [s|]] eqn:E.
  - destruct s as [|ch s].
    + cbn [Js.truthy_opt Js.truthy negb].
      destruct prefix as [p|]; [|now left].
      destruct (Js.truthy p); cbn [negb orb]; [|now left].
      destruct (prefix_is_mention c p) eqn:Hm; cbn [negb]; [|now left].
      destruct (commandForName c None) as [d|] eqn:Hd; [|now left].
      right. right. exists a, p, d. repeat split; trivial.
      destruct (execute d c m [] (Some p) None) as [e|x] eqn:X.
      * left. now exists e.
      * right. now exists x.
    + right. left. exists a, prefix, (ch :: s). repeat split; trivial.
      discriminate.
  - destruct prefix as [p|]; [|now left].
    now elim (splitPrefix_no_text c m E).
Qed.

(** The events of a named dispatch, beyond those that came before. *)
Lemma dispatch_named_events c m p s before ev :
  In ev (fst (dispatch_named execute c m p s before)) ->
  In ev before
  \/ exists k,
      commandForName c (Some (hd [] (Js.split 32 s))) = Some k
      /\ (ev = Emitted "preCommand" k (Some m)
          \/ ev = Executed k m (tl (Js.split 32 s)) p
                           (Some (hd [] (Js.split 32 s)))
          \/ (ev = Emitted "command" k (Some m)
              /\ execute k c m (tl (Js.split 32 s)) p
                         (Some (hd [] (Js.split 32 s))) = Returns Fulfils
              /\ dispatch_named execute c m p s before
                 = (before
                      ++ [Emitted "preCommand" k (Some m);
                          Executed k m (tl (Js.split 32 s)) p
                                   (Some (hd [] (Js.split 32 s)));
                          Emitted "command" k (Some m)],
                    Resolved))).
Proof.
  unfold dispatch_named.
  destruct (commandForName c (Some (hd [] (Js.split 32 s)))) as [k|];
    [|now left].
  destruct (execute k c m (tl (Js.split 32 s)) p
                    (Some (hd [] (Js.split 32 s)))) as [e|[|e|]] eqn:X;
    cbn [fst]; rewrite <- ?app_assoc; cbn [app]; rewrite in_app_iff;
    cbn [In].
  - intros [H | [H | [H | []]]]; subst; eauto 7.
  - intros [H | [H | [H | [H | []]]]]; subst; eauto 7.
    right. exists k. split; trivial. right. right. auto.
  - intros [H | [H | [H | []]]]; subst; eauto 7.
  - intros [H | [H | [H | []]]]; subst; eauto 7.
Qed.

(** Every event of [handleMessage], with where it comes from. *)
Lemma handleMessage_events c m ev :
  In ev (fst (handleMessage execute c m)) ->
  (exists d p,
      ev = Executed d m [] (Some p) None
      /\ commandForName c None = Some d
      /\ splitPrefixFromContent c m = (Some p, Some [])
      /\ prefix_is_mention c p = true)
  \/ exists k p s,
      splitPrefixFromContent c m = (p, Some s)
      /\ commandForName c (Some (hd [] (Js.split 32 s))) = Some k
      /\ (ev = Emitted "preCommand" k (Some m)
          \/ ev = Executed k m (tl (Js.split 32 s)) p
                           (Some (hd [] (Js.split 32 s)))
          \/ (ev = Emitted "command" k (Some m)
              /\ execute k c m (tl (Js.split 32 s)) p
                         (Some (hd [] (Js.split 32 s))) = Returns Fulfils
              /\ snd (handleMessage execute c m) = Resolved
              /\ In (Emitted "preCommand" k (Some m))
                    (fst (handleMessage execute c m))
              /\ In (Executed k m (tl (Js.split 32 s)) p
                              (Some (hd [] (Js.split 32 s))))
                    (fst (handleMessage execute c m)))).
Proof.
  intros H.
  destruct (handleMessage_cases c m)
    as [E | [(a & p & s & _ & _ & S & _ & E)
            | (a & p & d & _ & _ & S & Pm & D & [(e & _ & E) | (x & _ & E)])]];
    rewrite E in H |- *.
  - destruct H.
  - apply dispatch_named_events in H.
    destruct H as [[] | (k & K & H)]. right. exists k, p, s.
    repeat split; trivial.
    destruct H as [H | [H | (H & X & F)]]; auto.
    right. right. rewrite F. cbn [fst snd app In]. repeat split; auto.
  - destruct H as [<- | []]. left. now exists d, p.
  - apply dispatch_named_events in H.
    destruct H as [[<- | []] | (k & K & H)]; [left; now exists d, p|].
    right. exists k, (Some p), []. repeat split; trivial.
    destruct H as [H | [H | (H & X & F)]]; auto.
    right. right. rewrite F. cbn [fst snd app In]. repeat split; auto.
Qed.

(** X6. Whatever the message, [handleMessage] calls handlers and emits
    events for commands of the registry only. *)
Theorem handleMessage_touches_registered_only c m ev :
  In ev (fst (handleMessage execute c m)) ->
  match ev with
  | Emitted _ k _ => In k (commands c)
  | Executed k _ _ _ _ => In k (commands c)
  end.
Proof.
  intros H. apply handleMessage_events in H.
  destruct H as [(d & p & -> & D & _) | (k & p & s & _ & K & H)].
  - exact (commandForName_In _ _ D).
  - apply commandForName_In in K.
    destruct H as [-> | [-> | (-> & _)]]; exact K.
Qed.

(** X7. In every call made for a command name, the name and the
    arguments are the words of what follows the prefix: joined with
    single spaces they give that text back, and no word holds a space
    (two spaces in a row give an empty argument). *)
Theorem dispatched_words_rebuild_text c m k m' args p n :
  In (Executed k m' args p (Some n)) (fst (handleMessage execute c m)) ->
  exists s,
    splitPrefixFromContent c m = (p, Some s)
    /\ join_with 32 (n :: args) = s
    /\ Forall (fun w => ~ In 32%N w) (n :: args).
Proof.
  intros H. apply handleMessage_events in H.
  destruct H as [(d & q & [=] & _) | (k' & q & s & S & _ & H)].
  destruct H as [[=] | [[= -> -> -> -> ->] | ([=] & _)]].
  exists s. rewrite <- split_cons. repeat split; trivial.
  - apply join_split.
  - apply split_no_sep.
Qed.

(** X8. A [command] event is emitted only for a handler that was
    announced by [preCommand], called, and whose promise was fulfilled;
    the promise of [handleMessage] is then resolved. *)
Theorem command_event_follows_fulfilment c m k mo :
  In (Emitted "command" k mo) (fst (handleMessage execute c m)) ->
  mo = Some m
  /\ snd (handleMessage execute c m) = Resolved
  /\ In (Emitted "preCommand" k (Some m)) (fst (handleMessage execute c m))
  /\ exists args p n,
      In (Executed k m args p (Some n)) (fst (handleMessage execute c m))
      /\ execute k c m args p (Some n) = Returns Fulfils.
Proof.
  intros H. apply handleMessage_events in H.
  destruct H as [(d & q & [=] & _) | (k' & q & s & S & _ & H)].
  destruct H as [[=] | [[=] | ([= <- <-] & X & R & P & E)]].
  repeat split; trivial. eauto.
Qed.

(** X9. After the ready event of the user [id] and with mentions
    allowed, take a message whose author is not ignored, whose content
    is just a mention of that user ([<@id>] or [<@!id>], with at most
    one white-space character after it) and does not start with the
    prefix of its channel (so it is not a direct message, and the
    default prefix is not empty), on a client with a command named
    [null] and no command named by the empty string.  The default
    command is called with no argument and no command name, and no event
    is emitted.  The promise of that call is not awaited:
    [handleMessage] resolves whether it is fulfilled, rejects or never
    settles, and is rejected only when the call itself throws. *)
Theorem lone_mention_calls_default c m a id bang ws d :
  author m = Some a -> ignoreBots c && bot a = false ->
  mentionPrefixRegExp c = Some id -> allowMention c = true ->
  content m = mention_text id bang ++ ws -> lead_space ws = ws ->
  (forall p, prefixForMessage c m = Some p ->
             Js.startsWith (content m) p = false) ->
  commandForName c None = Some d ->
  commandForName c (Some []) = None ->
  handleMessage execute c m
  = ([Executed d m [] (Some (content m)) None],
     match execute d c m [] (Some (content m)) None with
     | Throws e => Rejected e
     | Returns _ => Resolved
     end).
Proof.
  intros A I R Al C W P D Hn.
  assert (S : splitPrefixFromContent c m = (Some (content m), Some [])).
  { unfold splitPrefixFromContent.
    rewrite (@mention_is_recognised_aux c m id bang ws R Al C P), W. simpl.
    now rewrite C, skipn_all. }
  assert (Pm : prefix_is_mention c (content m) = true).
  { unfold prefix_is_mention. rewrite R, C, mention_match_recognises.
    reflexivity. }
  unfold handleMessage. rewrite A, I, S. cbn [Js.truthy_opt Js.truthy negb].
  rewrite (prefix_is_mention_nonempty _ _ Pm), Pm, D. cbn [negb orb].
  destruct (execute d c m [] (Some (content m)) None); trivial.
  unfold dispatch_named. cbn [Js.split hd]. now rewrite Hn.
Qed.

End DispatchMore.

Lemma handleMessage_touches_registered_only_witness :
  In Sample.ping [Sample.ping; Sample.help].
Proof.
  exact (@handleMessage_touches_registered_only
           Sample.run (Sample.bot_with [Sample.ping; Sample.help])
           (Sample.user "!ping" true)
           (Emitted "preCommand" Sample.ping (Some (Sample.user "!ping" true)))
           (or_introl eq_refl)).
Defined.

Lemma dispatched_words_rebuild_text_witness :
  exists s,
    splitPrefixFromContent (Sample.bot_with [Sample.ping])
                           (Sample.user "!ping a  b" true)
    = (Some (Js.lit "!"), Some s)
    /\ join_with 32 [Js.lit "ping"; Js.lit "a"; []; Js.lit "b"] = s
    /\ Forall (fun w => ~ In 32%N w)
              [Js.lit "ping"; Js.lit "a"; []; Js.lit "b"].
Proof.
  apply (@dispatched_words_rebuild_text
           Sample.run (Sample.bot_with [Sample.ping])
           (Sample.user "!ping a  b" true) Sample.ping
           (Sample.user "!ping a  b" true)
           [Js.lit "a"; []; Js.lit "b"] (Some (Js.lit "!")) (Js.lit "ping")).
  right. left. reflexivity.
Defined.

Lemma command_event_follows_fulfilment_witness :
  snd (handleMessage Sample.run (Sample.bot_with [Sample.ping])
                     (Sample.user "!ping" true)) = Resolved.
Proof.
  refine (proj1 (proj2 (@command_event_follows_fulfilment
                          Sample.run (Sample.bot_with [Sample.ping])
                          (Sample.user "!ping" true) Sample.ping
                          (Some (Sample.user "!ping" true)) _))).
  right. right. left. reflexivity.
Defined.

Lemma lone_mention_calls_default_witness :
  handleMessage Sample.run (Sample.bot_with [Sample.ping; Sample.help])
                (Sample.user "<@123> " true)
  = ([Executed Sample.help (Sample.user "<@123> " true) []
               (Some (Js.lit "<@123> ")) None],
     Resolved).
Proof.
  apply (@lone_mention_calls_default
           Sample.run (Sample.bot_with [Sample.ping; Sample.help])
           (Sample.user "<@123> " true) (mkAuthor false) 123%N false
           (Js.lit " ") Sample.help);
    try reflexivity.
  intros p [= <-]. reflexivity.
Defined.

(** ** More on registration *)

Lemma find_app_cases {A} (f : A -> bool) (l l' : list A) :
  find f (l ++ l') = match find f l with
                     | Some x => Some x
                     | None => find f l'
                     end.
Proof.
  induction l as [|a l IH]; simpl; trivial. destruct (f a); trivial.
Qed.

Lemma commands_set_commands (c : Client) (cs : list Command) :
  commands (set_commands c cs) = cs.
Proof. reflexivity. Qed.

(** X10. [addCommand] registers all or nothing: either it appends the
    command to the registry and emits one [commandLoaded] event for it,
    or it throws and leaves the client and the events as they were; it
    throws for every value that is not a command. *)
Theorem addCommand_all_or_nothing (v : Value) (w : World) :
  (exists k,
      v = IsCommand k
      /\ snd (addCommand v w) = Ok tt
      /\ client (fst (addCommand v w))
         = set_commands (client w) (commands (client w) ++ [k])
      /\ log (fst (addCommand v w)) = log w ++ [loaded k])
  \/ (exists e,
         addCommand v w = (w, Throw e)
         /\ ((forall k, v <> IsCommand k) -> e = TypeError)).
Proof.
  destruct v as [| |k].
  - right. exists TypeError. split; trivial.
  - right. exists TypeError. split; trivial.
  - destruct (commandForName (client w) (name k)) as [d|] eqn:E.
    + right. exists (AlreadyRegistered (name k)).
      rewrite (addCommand_rejects _ _ E). split; trivial.
      intros H. now elim (H k).
    + left. exists k. rewrite (addCommand_accepts _ _ E). auto.
Qed.

(** X11. After [addCommand] has registered a command, the command is the
    one found by its canonical name; every lookup that found a command
    before finds the same one; and a name of the new command that no
    command answered to now finds the new command. *)
Theorem registered_command_is_found (k : Command) (w w' : World) :
  addCommand (IsCommand k) w = (w', Ok tt) ->
  commandForName (client w') (name k) = Some k
  /\ (forall n d, commandForName (client w) n = Some d ->
                  commandForName (client w') n = Some d)
  /\ (forall n, In n (names k) -> commandForName (client w) n = None ->
                commandForName (client w') n = Some k).
Proof.
  intros H.
  destruct (commandForName (client w) (name k)) as [d|] eqn:E.
  { rewrite (addCommand_rejects _ _ E) in H. discriminate. }
  rewrite (addCommand_accepts _ _ E) in H. injection H as <-.
  assert (F : forall n, In n (names k) -> commandForName (client w) n = None ->
                        commandForName
                          (set_commands (client w) (commands (client w) ++ [k]))
                          n = Some k).
  { intros n I N0. unfold commandForName in *.
    rewrite commands_set_commands, find_app_cases, N0. cbn [find].
    now rewrite (proj2 (includes_In (names k) n) I). }
  repeat split; cbn [client fst].
  - apply F; trivial. now left.
  - intros n d N0. unfold commandForName in *.
    now rewrite commands_set_commands, find_app_cases, N0.
  - exact F.
Qed.

Lemma registered_command_is_found_witness :
  commandForName (Sample.bot_with [Sample.ping; Sample.help])
                 (Some (Js.lit "help"))
  = Some Sample.help.
Proof.
  exact (proj1 (@registered_command_is_found
                  Sample.help
                  (start (Sample.bot_with [Sample.ping]))
                  (fst (addCommand (IsCommand Sample.help)
                                   (start (Sample.bot_with [Sample.ping]))))
                  eq_refl)).
Defined.

(** *** Canonical names *)

Lemma canonical_first_app (a b : list Command) :
  canonical_first (a ++ b)
  <-> canonical_first a /\ canonical_first b
      /\ forall d k, In d a -> In k b -> ~ In (name k) (names d).
Proof.
  induction a as [|x a IH]; simpl.
  - intuition.
  - rewrite IH. split.
    + intros (H1 & H2 & H3 & H4). repeat split; trivial.
      * intros k I. apply H1. apply in_or_app. now left.
      * intros d k [<- | I] J; [|now apply H4].
        apply H1. apply in_or_app. now right.
    + intros ((H1 & H2) & H3 & H4). repeat split; trivial.
      * intros k I. apply in_app_or in I. destruct I as [I | I]; auto.
      * intros d k I J. apply H4; auto.
Qed.

Lemma canonical_first_remove (a b : list Command) (x : Command) :
  canonical_first (a ++ x :: b) -> canonical_first (a ++ b).
Proof.
  rewrite !canonical_first_app. simpl.
  intros (H1 & (H2 & H3) & H4). repeat split; trivial.
  intros d k I J. apply H4; trivial. now right.
Qed.

(** In such a registry every command is the one found by its canonical
    name. *)
Lemma canonical_first_found (c : Client) (k : Command) :
  canonical_first (commands c) -> In k (commands c) ->
  commandForName c (name k) = Some k.
Proof.
  intros H I. apply in_split in I. destruct I as (l1 & l2 & E).
  apply commandForName_Some. exists l1, l2. repeat split; trivial.
  - now left.
  - intros d J. rewrite E in H. apply canonical_first_app in H.
    destruct H as (_ & _ & H). apply H; trivial. now left.
Qed.

Lemma addCommand_canonical (v : Value) (w : World) :
  canonical_first (commands (client w)) ->
  canonical_first (commands (client (fst (addCommand v w)))).
Proof.
  intros H. destruct v as [| |k]; trivial.
  destruct (commandForName (client w) (name k)) as [d|] eqn:E.
  - now rewrite (addCommand_rejects _ _ E).
  - rewrite (addCommand_accepts _ _ E). simpl.
    apply canonical_first_app. simpl. repeat split; trivial.
    + intros x [].
    + intros d x I [<- | []].
      rewrite commandForName_None in E. now apply E.
Qed.

Lemma nth_error_parts {A} (l : list A) (i : nat) (x : A) :
  nth_error l i = Some x ->
  l = firstn i l ++ x :: skipn (S i) l.
Proof.
  revert i. induction l as [|a l IH]; intros [|i]; simpl; try discriminate.
  - now intros [= ->].
  - intros H. f_equal. now apply IH.
Qed.

Lemma js_endsWith_slash (d : jsstr) :
  js_endsWith (d ++ Js.lit "/") (Js.lit "/") = true.
Proof.
  unfold js_endsWith. rewrite rev_app_distr. apply startsWith_app.
Qed.

Section RegistryCalls.

Variable glob : jsstr -> list jsstr.
Variable reload : jsstr -> option Value.

(** X12. [addCommandFile] registers all or nothing: either the file
    exports a command, which is registered with [filename] set to the
    file and announced by one [commandLoaded] event, or the call throws
    (the file does not load, exports something else, or the name of its
    command is taken) and the client and the events are as before. *)
Theorem addCommandFile_all_or_nothing (f : jsstr) (w : World) :
  (exists v,
      reload f = Some (IsCommand v)
      /\ snd (addCommandFile reload f w) = Ok tt
      /\ client (fst (addCommandFile reload f w))
         = set_commands (client w)
                        (commands (client w) ++ [set_filename v f])
      /\ log (fst (addCommandFile reload f w))
         = log w ++ [loaded (set_filename v f)]
      /\ filename (set_filename v f) = Some f)
  \/ exists e, addCommandFile reload f w = (w, Throw e).
Proof.
  destruct (addCommandFile_cases reload f w) as [(v & L & _ & E) | (e & E)].
  - left. exists v. rewrite E. auto.
  - right. now exists e.
Qed.

Lemma addCommandFile_canonical f w :
  canonical_first (commands (client w)) ->
  canonical_first (commands (client (fst (addCommandFile reload f w)))).
Proof.
  intros H. unfold addCommandFile.
  destruct (reload f) as [[| |v]|]; trivial; now apply addCommand_canonical.
Qed.

Lemma addCommandFiles_canonical fs :
  forall w,
    canonical_first (commands (client w)) ->
    canonical_first (commands (client (fst (addCommandFiles reload fs w)))).
Proof.
  induction fs as [|f fs IH]; intros w H; trivial.
  simpl. unfold bind.
  pose proof (addCommandFile_canonical f w H) as H1.
  destruct (addCommandFile reload f w) as [w1 [[]|e]]; trivial.
  now apply IH.
Qed.

Lemma reload_loop_canonical i :
  forall w,
    canonical_first (commands (client w)) ->
    canonical_first (commands (client (fst (reload_loop reload i w)))).
Proof.
  induction i as [|i IH]; intros w H; trivial.
  destruct (nth_error (commands (client w)) i) as [k|] eqn:E.
  - destruct (tracked k) eqn:T.
    + destruct (tracked_filename k T) as (f & F & Tf).
      rewrite (reload_loop_tracked reload _ _ E F Tf). cbv zeta.
      set (w1 := mkWorld _ _ _).
      assert (H1 : canonical_first (commands (client w1))).
      { subst w1. cbn [client]. rewrite commands_set_commands.
        apply (canonical_first_remove _ _ k).
        now rewrite <- (nth_error_parts _ _ E). }
      pose proof (addCommandFile_canonical f w1 H1) as H2.
      destruct (addCommandFile reload f w1) as [w2 [[]|e]]; trivial.
      now apply IH.
    + rewrite (reload_loop_untracked reload _ _ E T). now apply IH.
  - simpl. unfold bind. simpl. now rewrite E.
Qed.

Lemma call_canonical k w :
  canonical_first (commands (client w)) ->
  canonical_first (commands (client (fst (call glob reload k w)))).
Proof.
  intros H. destruct k as [v|f|d|]; simpl.
  - now apply addCommand_canonical.
  - now apply addCommandFile_canonical.
  - now apply addCommandFiles_canonical.
  - unfold reloadCommands, bind. simpl. now apply reload_loop_canonical.
Qed.

(** *** Reloading, whether it ends or throws *)

Lemma reload_loop_idle i :
  forall w,
    i <= List.length (commands (client w)) ->
    (forall k, In k (commands (client w)) -> tracked k = false) ->
    reload_loop reload i w = (w, Ok tt).
Proof.
  induction i as [|i IH]; intros w L U; trivial.
  destruct (nth_error (commands (client w)) i) as [k|] eqn:E.
  - rewrite (reload_loop_untracked reload _ _ E).
    + apply IH; trivial. lia.
    + apply U. eapply nth_error_In. exact E.
  - apply nth_error_None in E. lia.
Qed.

(** X14. When no command of the registry was loaded from a file, and so
    also when the registry is empty, [reloadCommands] returns and changes
    nothing: no command is removed, no file is loaded, no event is
    emitted. *)
Theorem reloadCommands_without_files (w : World) :
  (forall k, In k (commands (client w)) -> tracked k = false) ->
  reloadCommands reload w = (w, Ok tt).
Proof.
  intros U. unfold reloadCommands, bind. simpl.
  now apply reload_loop_idle.
Qed.

Lemma tracked_set_filename v f :
  Js.truthy f = true -> tracked (set_filename v f) = true.
Proof. intros T. unfold tracked. simpl. exact T. Qed.

Lemma reload_loop_counts i :
  forall w,
    i <= List.length (commands (client w)) ->
    filter untracked (commands (client (fst (reload_loop reload i w))))
    = filter untracked (commands (client w))
    /\ match snd (reload_loop reload i w) with
       | Ok _ =>
           List.length (commands (client (fst (reload_loop reload i w))))
           = List.length (commands (client w))
       | Throw _ =>
           S (List.length (commands (client (fst (reload_loop reload i w)))))
           = List.length (commands (client w))
       end.
Proof.
  induction i as [|i IH]; intros w L; [split; reflexivity|].
  destruct (nth_error (commands (client w)) i) as [k|] eqn:E;
    [|apply nth_error_None in E; lia].
  destruct (tracked k) eqn:T.
  - destruct (tracked_filename k T) as (f & F & Tf).
    rewrite (reload_loop_tracked reload _ _ E F Tf). cbv zeta.
    pose proof (nth_error_parts _ _ E) as P.
    remember (firstn i (commands (client w))) as l1 eqn:H1.
    remember (skipn (S i) (commands (client w))) as l2 eqn:H2.
    assert (Ll : List.length l1 = i).
    { subst l1. apply firstn_length_le. lia. }
    assert (U : filter untracked (l1 ++ l2)
                = filter untracked (commands (client w))).
    { rewrite P, !filter_app. cbn [filter].
      replace (untracked k) with false
        by (unfold untracked; now rewrite T).
      reflexivity. }
    assert (Len : S (List.length (l1 ++ l2))
                  = List.length (commands (client w))).
    { rewrite P, !length_app. simpl. lia. }
    set (w1 := mkWorld _ _ _).
    destruct (addCommandFile_cases reload f w1) as [(v & _ & _ & A) | (e & A)];
      rewrite A.
    + set (w2 := mkWorld _ _ _).
      destruct (IH w2) as (I1 & I2).
      { subst w2 w1. cbn [client]. rewrite !commands_set_commands.
        rewrite !length_app. simpl. lia. }
      assert (C2 : commands (client w2) = (l1 ++ l2) ++ [set_filename v f])
        by reflexivity.
      rewrite C2 in I1, I2. split.
      * rewrite I1, filter_app. cbn [filter].
        replace (untracked (set_filename v f)) with false
          by (unfold untracked; now rewrite (tracked_set_filename v f Tf)).
        now rewrite app_nil_r.
      * rewrite length_app in I2. simpl in I2.
        destruct (snd (reload_loop reload i w2)); lia.
    + cbn [fst snd]. subst w1. cbn [client].
      rewrite commands_set_commands. split; trivial.
  - rewrite (reload_loop_untracked reload _ _ E T). apply IH. lia.
Qed.

(** X15. Whether [reloadCommands] returns or throws, the commands that
    were not loaded from a file are left in the registry as they were,
    in their order.  When it returns, the registry has as many commands
    as before; when it throws, it has exactly one command fewer. *)
Theorem reloadCommands_outcomes (w : World) :
  filter untracked (commands (client (fst (reloadCommands reload w))))
  = filter untracked (commands (client w))
  /\ match snd (reloadCommands reload w) with
     | Ok _ =>
         List.length (commands (client (fst (reloadCommands reload w))))
         = List.length (commands (client w))
     | Throw _ =>
         S (List.length (commands (client (fst (reloadCommands reload w)))))
         = List.length (commands (client w))
     end.
Proof.
  unfold reloadCommands, bind. simpl. now apply reload_loop_counts.
Qed.

(** *** Directories *)

(** X16. [addCommandDir] does the same with and without the slash at
    the end of the name of the directory. *)
Theorem addCommandDir_trailing_slash (d : jsstr) :
  js_endsWith d (Js.lit "/") = false ->
  addCommandDir glob reload d = addCommandDir glob reload (d ++ Js.lit "/").
Proof.
  intros H. unfold addCommandDir. now rewrite H, js_endsWith_slash.
Qed.

(** How [addCommandFile] ends, with the reason of a throw. *)
Lemma addCommandFile_outcome f w :
  (exists v,
      reload f = Some (IsCommand v)
      /\ (forall d, In d (commands (client w)) -> ~ In (name v) (names d))
      /\ addCommandFile reload f w
         = (mkWorld (set_commands (client w)
                                  (commands (client w) ++ [set_filename v f]))
                    (log w ++ [Emitted "commandLoaded" (set_filename v f) None])
                    (history w ++ [commands (client w) ++ [set_filename v f]]),
            Ok tt))
  \/ exists e,
      file_fails reload f (commands (client w)) e
      /\ addCommandFile reload f w = (w, Throw e).
Proof.
  unfold file_fails.
  destruct (reload f) as [[| |v]|] eqn:L.
  - right. exists TypeError. unfold addCommandFile. rewrite L. auto 6.
  - right. exists TypeError. unfold addCommandFile. rewrite L. auto 6.
  - destruct (commandForName (client w) (name v)) as [d|] eqn:E.
    + right. exists (AlreadyRegistered (name v)). split.
      * right. right. exists v. repeat split; trivial.
        apply commandForName_Some in E.
        destruct E as (l1 & l2 & E & I & _). exists d. split; trivial.
        rewrite E. apply in_or_app. right. now left.
      * unfold addCommandFile. rewrite L.
        apply (@addCommand_rejects (set_filename v f) d). exact E.
    + left. exists v. repeat split; trivial.
      * now apply commandForName_None.
      * unfold addCommandFile. rewrite L.
        now apply (@addCommand_accepts (set_filename v f)).
  - right. exists LoadError. unfold addCommandFile. rewrite L. auto.
Qed.

Lemma addCommandFiles_spec fs :
  forall w,
  exists added,
    loads reload (commands (client w)) (firstn (List.length added) fs) added
    /\ commands (client (fst (addCommandFiles reload fs w)))
       = commands (client w) ++ added
    /\ log (fst (addCommandFiles reload fs w)) = log w ++ map loaded added
    /\ match snd (addCommandFiles reload fs w) with
       | Ok _ => List.length added = List.length fs
       | Throw e =>
           exists f,
             nth_error fs (List.length added) = Some f
             /\ file_fails reload f (commands (client w) ++ added) e
       end.
Proof.
  induction fs as [|f fs IH]; intros w.
  - exists []. simpl. rewrite !app_nil_r. repeat split; trivial. constructor.
  - simpl. unfold bind.
    destruct (addCommandFile_outcome f w) as [(v & L & Fr & A) | (e & Ff & A)];
      rewrite A.
    + match goal with
      | |- context [addCommandFiles reload fs ?w1] =>
          destruct (IH w1) as (added & Lo & C & G & R)
      end.
      exists (set_filename v f :: added). cbn [client log] in Lo, C, G, R.
      rewrite commands_set_commands in Lo, C, R.
      rewrite C, G, <- !app_assoc. cbn [List.length firstn nth_error map app].
      repeat split; trivial.
      * now constructor.
      * destruct (snd (addCommandFiles reload fs _)) as [[]|e]; [lia|].
        now rewrite <- app_assoc in R.
    + exists []. cbn [fst snd List.length firstn nth_error map].
      rewrite !app_nil_r. repeat split; trivial; [constructor|].
      now exists f.
Qed.

(** X17. [addCommandDir] loads the files that glob finds for
    [dirname/*.js] in that order, into the registry as it grows: while
    a file exports a command whose canonical name is free, the command
    is appended with its [filename] and one [commandLoaded] event.  It
    returns when all the files are registered.  It throws at the first
    file that does not load, exports no command or has its name taken,
    with the error of that file; the commands of the files before it
    stay registered and the files after it are not loaded. *)
Theorem addCommandDir_loads_in_order (d : jsstr) (w : World) :
  let dir := if js_endsWith d (Js.lit "/") then d else d ++ Js.lit "/" in
  let fs := glob (dir ++ Js.lit "*.js") in
  exists added,
    loads reload (commands (client w)) (firstn (List.length added) fs) added
    /\ commands (client (fst (addCommandDir glob reload d w)))
       = commands (client w) ++ added
    /\ log (fst (addCommandDir glob reload d w)) = log w ++ map loaded added
    /\ match snd (addCommandDir glob reload d w) with
       | Ok _ => List.length added = List.length fs
       | Throw e =>
           exists f,
             nth_error fs (List.length added) = Some f
             /\ file_fails reload f (commands (client w) ++ added) e
       end.
Proof.
  intros dir fs. unfold addCommandDir. fold dir. fold fs.
  apply addCommandFiles_spec.
Qed.


End RegistryCalls.


Lemma calls_canonical ks :
  forall w,
    canonical_first (commands (client w)) ->
    canonical_first (commands (client (calls ks w))).
Proof.
  induction ks as [|[d k] ks IH]; intros w H; trivial.
  simpl. apply IH. now apply call_canonical.
Qed.

(** X13. However [addCommand], [addCommandFile], [addCommandDir] and
    [reloadCommands] are called on a new client, whatever the files are
    at the time of each call, and whichever of the calls throw, every
    command of the registry is the one that its canonical name finds:
    no command is hidden under its own name. *)
Theorem canonical_name_finds_command
        (o : option Options) (ks : list (Disk * Call)) (k : Command) :
  In k (commands (client (calls ks (start (fst (construct o)))))) ->
  commandForName (client (calls ks (start (fst (construct o))))) (name k)
  = Some k.
Proof.
  apply canonical_first_found. apply calls_canonical.
  destruct o; exact I.
Qed.

Lemma canonical_name_finds_command_witness :
  commandForName
    (client (calls [(SampleDisk.disk0, CallAddCommandDir (Js.lit "cmds"));
                    (SampleDisk.disk0, CallAddCommand (IsCommand Sample.alpha));
                    (SampleDisk.disk1, CallReloadCommands)]
                   (start (fst (construct None)))))
    (Some (Js.lit "g"))
  = Some (set_filename (Sample.cmd "g" ["c"] 10) (Js.lit "g.js")).
Proof.
  apply (@canonical_name_finds_command
           None
           [(SampleDisk.disk0, CallAddCommandDir (Js.lit "cmds"));
            (SampleDisk.disk0, CallAddCommand (IsCommand Sample.alpha));
            (SampleDisk.disk1, CallReloadCommands)]
           (set_filename (Sample.cmd "g" ["c"] 10) (Js.lit "g.js"))).
  vm_compute. tauto.
Defined.

Lemma reloadCommands_without_files_witness :
  reloadCommands Sample.disk
                 (start (Sample.bot_with [Sample.ping; Sample.help]))
  = (start (Sample.bot_with [Sample.ping; Sample.help]), Ok tt).
Proof.
  apply reloadCommands_without_files.
  intros k [<- | [<- | []]]; reflexivity.
Defined.

Lemma addCommandDir_trailing_slash_witness :
  addCommandDir Sample.tree Sample.disk (Js.lit "cmds")
  = addCommandDir Sample.tree Sample.disk (Js.lit "cmds" ++ Js.lit "/").
Proof.
  apply addCommandDir_trailing_slash. reflexivity.
Defined.

(** ** The helper [filterAsync] *)

Lemma all_fulfilled_mapi {A} (test : A -> nat -> Promise bool)
      (keep : A -> nat -> bool) (l : list A) :
  forall i,
    (forall j x, nth_error l j = Some x ->
                 test x (i + j) = Fulfilled (keep x (i + j))) ->
    all_fulfilled (mapi_from i test l)
    = Some (map (fun xj => keep (fst xj) (snd xj))
                (combine l (seq i (List.length l)))).
Proof.
  induction l as [|x l IH]; intros i H; simpl; trivial.
  rewrite <- (Nat.add_0_r i) at 1 2. rewrite (H 0 x eq_refl).
  rewrite IH.
  - now rewrite Nat.add_0_r.
  - intros j y E. rewrite Nat.add_succ_comm. now apply (H (S j)).
Qed.

Lemma filter_shift_map {A B} (g : A * B -> bool) (l : list A) :
  forall ys : list B,
    List.length ys = List.length l ->
    filter_shift l (map g (combine l ys))
    = map fst (filter g (combine l ys)).
Proof.
  induction l as [|x l IH]; intros [|y ys] L; try discriminate; trivial.
  simpl. injection L as L. rewrite (IH ys L).
  destruct (g (x, y)); reflexivity.
Qed.

Lemma all_fulfilled_None {A} (ps : list (Promise A)) :
  all_fulfilled ps = None <-> exists p, In p ps /\ forall a, p <> Fulfilled a.
Proof.
  induction ps as [|p ps IH]; simpl.
  - split; [discriminate | intros (p & [] & _)].
  - destruct p as [a|e|].
    + destruct (all_fulfilled ps) as [vs|].
      * split; [discriminate|]. intros (p & [<- | I] & F).
        -- now elim (F a).
        -- apply proj2 in IH. discriminate IH. now exists p.
      * split; trivial. intros _. destruct (proj1 IH eq_refl) as (p & I & F).
        exists p. auto.
    + split; trivial. intros _. exists (Failed e). split; [now left|].
      discriminate.
    + split; trivial. intros _. exists Unsettled. split; [now left|].
      discriminate.
Qed.

(** X18. When every test is fulfilled, [filterAsync] is fulfilled with
    the elements whose test gave [true], in the order of the array, each
    test being made once with the element, its index and the array. *)
Theorem filterAsync_keeps_accepted {A} (array : list A)
        (test : A -> nat -> list A -> Promise bool)
        (keep : A -> nat -> bool) :
  (forall i x, nth_error array i = Some x ->
               test x i array = Fulfilled (keep x i)) ->
  filterAsync array test
  = Some (map fst (filter (fun xi => keep (fst xi) (snd xi))
                          (combine array (seq 0 (List.length array))))).
Proof.
  intros H. unfold filterAsync.
  rewrite (@all_fulfilled_mapi A (fun el i => test el i array) keep array 0)
    by (intros j x E; simpl; now apply H).
  f_equal. apply filter_shift_map. apply length_seq.
Qed.

Lemma filterAsync_keeps_accepted_witness :
  filterAsync [Sample.ping; Sample.boom; Sample.help] Sample.allowed
  = Some [Sample.ping; Sample.help].
Proof.
  apply (@filterAsync_keeps_accepted
           Command [Sample.ping; Sample.boom; Sample.help] Sample.allowed
           (fun c _ => negb (Nat.eqb (uid c) 13))).
  intros i x _. reflexivity.
Defined.

(** X19. [filterAsync] is not fulfilled exactly when one of the tests is
    not: a test that rejects or never settles makes the whole filter
    fail, whatever the other tests give. *)
Theorem filterAsync_fails_with_a_test {A} (array : list A)
        (test : A -> nat -> list A -> Promise bool) :
  filterAsync array test = None
  <-> exists i x, nth_error array i = Some x
                  /\ forall b, test x i array <> Fulfilled b.
Proof.
  unfold filterAsync.
  assert (M : forall l k p,
             In p (mapi_from k (fun el i => test el i array) l)
             <-> exists j x, nth_error l j = Some x
                             /\ p = test x (k + j) array).
  { induction l as [|y l IH]; intros k p; simpl.
    - split; [intros [] | intros (j & x & E & _); now destruct j].
    - rewrite IH. split.
      + intros [<- | (j & x & E & ->)].
        * exists 0, y. now rewrite Nat.add_0_r.
        * exists (S j), x. now rewrite Nat.add_succ_comm.
      + intros ([|j] & x & E & ->); simpl in E.
        * injection E as ->. left. now rewrite Nat.add_0_r.
        * right. exists j, x. now rewrite Nat.add_succ_comm. }
  destruct (all_fulfilled (mapi_from 0 (fun el i => test el i array) array))
    as [bits|] eqn:E.
  - split; [discriminate|]. intros (i & x & N & F). exfalso.
    assert (N0 : all_fulfilled
                   (mapi_from 0 (fun el i => test el i array) array) = None).
    { apply all_fulfilled_None. exists (test x i array). split; trivial.
      apply M. now exists i, x. }
    congruence.
  - split; trivial. intros _. apply all_fulfilled_None in E.
    destruct E as (p & I & F). apply M in I.
    destruct I as (j & x & N & ->). now exists j, x.
Qed.
